(** * bolt-rawgen: the code generator of the raw package, verified

    A shallow embedding of [cmd/bolt-rawgen/main.go].  Go strings are byte
    sequences, so they are modelled by [string] (a list of 8-bit
    characters); the [bytes.Buffer] the generator writes to is a [string]
    threaded through a small writer monad; the file system and the log are
    an explicit [world]; Go's [error] is [option error] ([None] is nil). *)

From Stdlib Require Import ZArith Ascii String List Lia Bool.
From stdpp Require Import base gmap strings.
Import ListNotations.

Local Open Scope nat_scope.

(** ** Characters used by the templates *)

Definition nl : string := String (ascii_of_nat 10) "".
Definition tab : string := String (ascii_of_nat 9) "".

(** ** Go's [unicode] tables on the runes a single byte can denote

    [unicode.IsUpper] and [unicode.ToUpper] are only ever applied to
    [rune(s[0])], a code point below 256: the Latin-1 rows of Go's tables. *)

Module unicode.

Definition IsUpper (r : nat) : bool :=
  ((65 <=? r) && (r <=? 90)) || ((192 <=? r) && (r <=? 214))
  || ((216 <=? r) && (r <=? 222)).

Definition ToUpper (r : nat) : nat :=
  if (97 <=? r) && (r <=? 122) then r - 32
  else if r =? 181 then 924
  else if ((224 <=? r) && (r <=? 246)) || ((248 <=? r) && (r <=? 254))
       then r - 32
  else if r =? 255 then 376
  else r.

End unicode.

(** [string(r)] for a rune below 0x800: its UTF-8 encoding. *)
Definition string_of_rune (r : nat) : string :=
  if r <? 128 then String (ascii_of_nat r) ""
  else String (ascii_of_nat (192 + r / 64))
         (String (ascii_of_nat (128 + r mod 64)) "").

(** ** The part of [go/ast] the generator looks at *)

Inductive Expr : Type :=
| Ident (Name : string)
| SelectorExpr (X : Expr) (Sel : string)
| StructType (Fields : list Field)
| OtherExpr
with Field : Type :=
| mkField (Names : list string) (Type_ : Expr).

Definition Names (f : Field) : list string :=
  match f with mkField ns _ => ns end.

Definition FieldType (f : Field) : Expr :=
  match f with mkField _ t => t end.

Record TypeSpec : Type := mkTypeSpec { Name : string; Type_ : Expr }.

(** A parsed file, as [ast.Walk] presents it to the visitor: the
    [*ast.TypeSpec] nodes in the order of the walk.  [Visit] ignores every
    other kind of node. *)
Definition File : Type := list TypeSpec.

(** ** Errors *)

Inductive error : Type :=
| ErrNotExist (path : string)
| ErrPermission (path : string)
| ErrParse (msg : string)
| ErrExportedRaw (name : string)
| ErrGenerate (what : string) (s : list Field)
| ErrInvalidRawType (typ : string)
| PanicIndexOutOfRange.

(** ** Helpers of the generator *)

(** [tostr] converts a node to a string. *)
Fixpoint tostr (node : Expr) : string :=
  match node with
  | Ident name => name
  | SelectorExpr x sel => tostr x +:+ "." +:+ sel
  | _ => ""
  end.

Definition tocamelcase (s : string) : string :=
  match s with
  | EmptyString => s
  | String c rest => string_of_rune (unicode.ToUpper (nat_of_ascii c)) +:+ rest
  end.

(** A [case "a", "b", ...:] label of a switch on a string. *)
Definition oneOf (s : string) (labels : list string) : bool :=
  existsb (String.eqb s) labels.

(** [isRawStructType] returns true when a type declaration uses all raw
    types. *)
Fixpoint isRawStructType (fields : list Field) : bool :=
  match fields with
  | [] => true
  | f :: rest =>
      let t := tostr (FieldType f) in
      if oneOf t ["bool"] then isRawStructType rest
      else if oneOf t ["int8"; "int16"; "int32"; "int64"] then isRawStructType rest
      else if oneOf t ["uint8"; "uint16"; "uint32"; "uint64"] then isRawStructType rest
      else if oneOf t ["float32"; "float64"] then isRawStructType rest
      else if oneOf t ["raw.Time"; "raw.Duration"] then isRawStructType rest
      else if oneOf t ["raw.String"] then isRawStructType rest
      else false
  end.

(** ** The writer: a [bytes.Buffer] that only grows *)

Definition Writer (A : Type) : Type := string -> A * string.

Definition ret {A : Type} (a : A) : Writer A := fun w => (a, w).

Definition bind {A B : Type} (m : Writer A) (k : A -> Writer B) : Writer B :=
  fun w => let (a, w') := m w in k a w'.

Notation "x <- m ;; k" := (bind m (fun x => k))
  (at level 100, m at next level, right associativity).
Notation "m ;; k" := (bind m (fun _ => k))
  (at level 100, right associativity).

(** [fmt.Fprint]/[fmt.Fprintf] with every [%s] already substituted. *)
Definition Fprint (s : string) : Writer unit := fun w => (tt, w +:+ s).

(** Go's [if err := f(); err != nil { return e }] followed by [k]. *)
Definition orReturn (m : Writer (option error)) (e : error)
    (k : Writer (option error)) : Writer (option error) :=
  r <- m ;; match r with Some _ => ret (Some e) | None => k end.

(** ** The emitters *)

(** The switch of [writeExportedType]: the external type of a raw type. *)
Definition exportedTypeOf (t : string) : option string :=
  if oneOf t ["bool"] then Some "bool"
  else if oneOf t ["int8"; "int16"; "int32"; "int64"] then Some "int"
  else if oneOf t ["uint8"; "uint16"; "uint32"; "uint64"] then Some "uint"
  else if oneOf t ["float32"] then Some "float32"
  else if oneOf t ["float64"] then Some "float64"
  else if oneOf t ["raw.Time"] then Some "time.Time"
  else if oneOf t ["raw.Duration"] then Some "time.Duration"
  else if oneOf t ["raw.String"] then Some "string"
  else None.

Fixpoint writeExportedType_names (typ : string) (names : list string)
  : Writer unit :=
  match names with
  | [] => ret tt
  | n :: ns =>
      Fprint (tab +:+ tocamelcase n +:+ " " +:+ typ +:+ nl) ;;
      writeExportedType_names typ ns
  end.

Fixpoint writeExportedType_fields (fields : list Field)
  : Writer (option error) :=
  match fields with
  | [] => ret None
  | f :: rest =>
      match exportedTypeOf (tostr (FieldType f)) with
      | None => ret (Some (ErrInvalidRawType (tostr (FieldType f))))
      | Some typ =>
          writeExportedType_names typ (Names f) ;;
          writeExportedType_fields rest
      end
  end.

(** [writeExportedType] writes a generated exported type for a raw struct
    type. *)
Definition writeExportedType (name : string) (node : list Field)
  : Writer (option error) :=
  Fprint ("type " +:+ name +:+ " struct {" +:+ nl) ;;
  r <- writeExportedType_fields node ;;
  match r with
  | Some e => ret (Some e)
  | None => Fprint ("}" +:+ nl +:+ nl) ;; ret None
  end.

(** The inner loop of [writeEncodeFunc] over the names of one field.  [typ]
    is the loop-carried local of the source: it starts as [tostr(f.Type)]
    and the numeric case assigns ["uint"] to it; [ftyp] is [tostr(f.Type)]
    itself, which the error message prints. *)
Fixpoint writeEncodeFunc_names (ftyp typ : string) (names : list string)
  : Writer (option error) :=
  match names with
  | [] => ret None
  | n :: ns =>
      if oneOf typ ["bool"] then
        Fprint (tab +:+ "r." +:+ n +:+ " = o." +:+ tocamelcase n +:+ nl) ;;
        writeEncodeFunc_names ftyp typ ns
      else if oneOf typ ["int8"; "int16"; "int32"; "int64"; "uint8"; "uint16";
                         "uint32"; "uint64"; "float32"; "float64"] then
        Fprint (tab +:+ "r." +:+ n +:+ " = " +:+ typ +:+ "(o."
                +:+ tocamelcase n +:+ ")" +:+ nl) ;;
        writeEncodeFunc_names ftyp "uint" ns
      else if oneOf typ ["raw.Time"] then
        Fprint (tab +:+ "r." +:+ n +:+ " = raw.Time(o." +:+ tocamelcase n
                +:+ ".UnixNano())" +:+ nl) ;;
        writeEncodeFunc_names ftyp typ ns
      else if oneOf typ ["raw.Duration"] then
        Fprint (tab +:+ "r." +:+ n +:+ " = raw.Duration(o." +:+ tocamelcase n
                +:+ ")" +:+ nl) ;;
        writeEncodeFunc_names ftyp typ ns
      else if oneOf typ ["raw.String"] then
        Fprint (tab +:+ "r." +:+ n +:+ ".Encode(o." +:+ tocamelcase n
                +:+ ", &b)" +:+ nl) ;;
        writeEncodeFunc_names ftyp typ ns
      else ret (Some (ErrInvalidRawType ftyp))
  end.

Fixpoint writeEncodeFunc_fields (fields : list Field) : Writer (option error) :=
  match fields with
  | [] => ret None
  | f :: rest =>
      let typ := tostr (FieldType f) in
      r <- writeEncodeFunc_names typ typ (Names f) ;;
      match r with
      | Some e => ret (Some e)
      | None => writeEncodeFunc_fields rest
      end
  end.

(** [writeEncodeFunc] writes a generated encoding function for a raw struct
    type. *)
Definition writeEncodeFunc (unexp exp : string) (node : list Field)
  : Writer (option error) :=
  Fprint ("func (o *" +:+ exp +:+ ") Encode() []byte {" +:+ nl) ;;
  Fprint (tab +:+ "var r " +:+ unexp +:+ nl) ;;
  Fprint (tab +:+ "b := make([]byte, unsafe.Sizeof(r), int(unsafe.Sizeof(r)))" +:+ nl) ;;
  r <- writeEncodeFunc_fields node ;;
  match r with
  | Some e => ret (Some e)
  | None =>
      Fprint (tab +:+ "copy(b, (*[unsafe.Sizeof(r)]byte)(unsafe.Pointer(&r))[:])" +:+ nl) ;;
      Fprint (tab +:+ "return b" +:+ nl) ;;
      Fprint ("}" +:+ nl +:+ nl) ;;
      ret None
  end.

Fixpoint writeDecodeFunc_names (names : list string) : Writer unit :=
  match names with
  | [] => ret tt
  | n :: ns =>
      Fprint (tab +:+ "o." +:+ tocamelcase n +:+ " = r." +:+ tocamelcase n
              +:+ "()" +:+ nl) ;;
      writeDecodeFunc_names ns
  end.

Fixpoint writeDecodeFunc_fields (fields : list Field) : Writer unit :=
  match fields with
  | [] => ret tt
  | f :: rest => writeDecodeFunc_names (Names f) ;; writeDecodeFunc_fields rest
  end.

(** [writeDecodeFunc] writes a generated decoding function for a raw struct
    type. *)
Definition writeDecodeFunc (unexp exp : string) (node : list Field)
  : Writer (option error) :=
  Fprint ("func (o *" +:+ exp +:+ ") Decode(b []byte) {" +:+ nl) ;;
  Fprint (tab +:+ "r := (*" +:+ unexp +:+ ")(unsafe.Pointer(&b[0]))" +:+ nl) ;;
  writeDecodeFunc_fields node ;;
  Fprint ("}" +:+ nl +:+ nl) ;;
  ret None.

Fixpoint writeAccessorFuncs_names (name ftyp : string) (names : list string)
  : Writer (option error) :=
  match names with
  | [] => ret None
  | n :: ns =>
      let head := "func (r *" +:+ name +:+ ") " +:+ tocamelcase n in
      if oneOf ftyp ["bool"] then
        Fprint (head +:+ "() bool { return r." +:+ n +:+ " }" +:+ nl +:+ nl) ;;
        writeAccessorFuncs_names name ftyp ns
      else if oneOf ftyp ["int8"; "int16"; "int32"; "int64"] then
        Fprint (head +:+ "() int { return int(r." +:+ n +:+ ") }" +:+ nl +:+ nl) ;;
        writeAccessorFuncs_names name ftyp ns
      else if oneOf ftyp ["uint8"; "uint16"; "uint32"; "uint64"] then
        Fprint (head +:+ "() uint { return uint(r." +:+ n +:+ ") }" +:+ nl +:+ nl) ;;
        writeAccessorFuncs_names name ftyp ns
      else if oneOf ftyp ["float32"; "float64"] then
        Fprint (head +:+ "() " +:+ ftyp +:+ " { return r." +:+ n +:+ " }"
                +:+ nl +:+ nl) ;;
        writeAccessorFuncs_names name ftyp ns
      else if oneOf ftyp ["raw.Time"] then
        Fprint (head +:+ "() time.Time { return time.Unix(0, int64(r." +:+ n
                +:+ ")).UTC() }" +:+ nl +:+ nl) ;;
        writeAccessorFuncs_names name ftyp ns
      else if oneOf ftyp ["raw.Duration"] then
        Fprint (head +:+ "() time.Duration { return time.Duration(r." +:+ n
                +:+ ") }" +:+ nl +:+ nl) ;;
        writeAccessorFuncs_names name ftyp ns
      else if oneOf ftyp ["raw.String"] then
        Fprint (head +:+ "() string { return r." +:+ n
                +:+ ".String(((*[0xFFFF]byte)(unsafe.Pointer(r)))[:]) }" +:+ nl) ;;
        Fprint (head +:+ "Bytes() []byte { return r." +:+ n
                +:+ ".Bytes(((*[0xFFFF]byte)(unsafe.Pointer(r)))[:]) }"
                +:+ nl +:+ nl) ;;
        writeAccessorFuncs_names name ftyp ns
      else ret (Some (ErrInvalidRawType ftyp))
  end.

(** [writeAccessorFuncs] writes accessor functions for a raw struct type. *)
Fixpoint writeAccessorFuncs (name : string) (node : list Field)
  : Writer (option error) :=
  match node with
  | [] => ret None
  | f :: rest =>
      r <- writeAccessorFuncs_names name (tostr (FieldType f)) (Names f) ;;
      match r with
      | Some e => ret (Some e)
      | None => writeAccessorFuncs name rest
      end
  end.

(** ** The generator *)

(** [generator] iterates over every AST node and generates code as
    appropriate. *)
Record generator : Type := mkGenerator { w : string; err : option error }.

(** [visitTypeSpec] is called for every type declaration.  Each declaration
    is checked for raw usage and an exported type is generated if
    appropriate.  [node.Name.Name[0]] panics on an empty name. *)
Definition visitTypeSpec (node : TypeSpec) : Writer (option error) :=
  match Type_ node with
  | StructType s =>
      if negb (isRawStructType s) then ret None
      else
        match Name node with
        | EmptyString => ret (Some PanicIndexOutOfRange)
        | String c _ =>
            if unicode.IsUpper (nat_of_ascii c)
            then ret (Some (ErrExportedRaw (Name node)))
            else
              let unexp := Name node in
              let exp := tocamelcase (Name node) in
              Fprint ("//raw:codegen:begin" +:+ nl +:+ nl) ;;
              Fprint ("//" +:+ nl) ;;
              Fprint ("// DO NOT CHANGE" +:+ nl) ;;
              Fprint ("// This section has been generated by bolt-rawgen." +:+ nl) ;;
              Fprint ("//" +:+ nl +:+ nl) ;;
              orReturn (writeExportedType exp s)
                (ErrGenerate "generate exported type" s)
             (orReturn (writeEncodeFunc unexp exp s)
                (ErrGenerate "generate encode func" s)
             (orReturn (writeDecodeFunc unexp exp s)
                (ErrGenerate "generate decode func" s)
             (orReturn (writeAccessorFuncs unexp s)
                (ErrGenerate "generate accessor funcs" s)
             (Fprint ("//raw:codegen:end" +:+ nl +:+ nl) ;;
              ret None))))
        end
  | _ => ret None
  end.

(** [Visit] is called once for every AST node; only type declarations make
    it act, and after an error it does nothing. *)
Definition Visit (g : generator) (node : TypeSpec) : generator :=
  match err g with
  | Some _ => g
  | None =>
      let (r, w') := visitTypeSpec node (w g) in
      {| w := w'; err := r |}
  end.

(** [ast.Walk(&g, f)]. *)
Definition Walk (g : generator) (f : File) : generator := fold_left Visit f g.

(** ** The regular expression and the trimming of [process] *)

Definition beginMarker : string := "//raw:codegen:begin".
Definition endMarker : string := "//raw:codegen:end".

(** Case folding of the [(?i)] flag.  The letters of the two markers fold
    only with their ASCII upper-case forms. *)
Definition toLower (c : ascii) : ascii :=
  let n := nat_of_ascii c in
  if (65 <=? n) && (n <=? 90) then ascii_of_nat (n + 32) else c.

Definition eqFold (a c : ascii) : bool := Ascii.eqb (toLower a) (toLower c).

(** [m] matches, case-insensitively, at the start of [s]. *)
Fixpoint hasPrefixFold (m s : string) : bool :=
  match m, s with
  | EmptyString, _ => true
  | String _ _, EmptyString => false
  | String a m', String c s' => eqFold a c && hasPrefixFold m' s'
  end.

Fixpoint skip (n : nat) (s : string) : string :=
  match n, s with
  | S n', String _ s' => skip n' s'
  | _, _ => s
  end.

(** What follows the first case-insensitive occurrence of [m] in [s]. *)
Fixpoint indexFold (m s : string) : option string :=
  if hasPrefixFold m s then Some (skip (String.length m) s)
  else match s with
       | EmptyString => None
       | String _ s' => indexFold m s'
       end.

(** [(?is)//raw:codegen:begin.+?//raw:codegen:end] matched at the start of
    [s]: the begin marker, at least one character, and the shortest stretch
    up to an end marker; the result is what follows the match. *)
Definition matchBlock (s : string) : option string :=
  if hasPrefixFold beginMarker s then
    match skip (String.length beginMarker) s with
    | String _ t => indexFold endMarker t
    | EmptyString => None
    end
  else None.

(** [ReplaceAll(b, []byte{})]: every leftmost match is dropped, scanning
    resumes after it.  A match shortens the text, so [fuel] equal to the
    length of the text is never used up. *)
Fixpoint ReplaceAll_fuel (fuel : nat) (s : string) : string :=
  match fuel with
  | 0 => s
  | S fuel' =>
      match s with
      | EmptyString => EmptyString
      | String c s' =>
          match matchBlock s with
          | Some rest => ReplaceAll_fuel fuel' rest
          | None => String c (ReplaceAll_fuel fuel' s')
          end
      end
  end.

Definition ReplaceAll (s : string) : string :=
  ReplaceAll_fuel (String.length s) s.

Definition inCutset (c : ascii) : bool :=
  let n := nat_of_ascii c in (n =? 32) || (n =? 10) || (n =? 13).

(** [strings.TrimRight(s, " \n\r")]. *)
Fixpoint TrimRight (s : string) : string :=
  match s with
  | EmptyString => EmptyString
  | String c s' =>
      match TrimRight s' with
      | EmptyString => if inCutset c then EmptyString else String c EmptyString
      | t => String c t
      end
  end.

(** ** Files and the log *)

Record file : Type := mkFile { content : string; writable : bool }.

Record world : Type := mkWorld { files : gmap string file; stdlog : list string }.

Inductive result (A : Type) : Type :=
| Ok (a : A)
| Err (e : error).
Arguments Ok {A} a.
Arguments Err {A} e.

Module ioutil.

Definition ReadFile (path : string) (st : world) : result string :=
  match files st !! path with
  | Some f => Ok (content f)
  | None => Err (ErrNotExist path)
  end.

(** Writing replaces the content of a writable file and creates a missing
    one; a file that is not writable makes it fail and stay as it is. *)
Definition WriteFile (path data : string) (st : world) : option error * world :=
  match files st !! path with
  | Some f =>
      if writable f
      then (None, mkWorld (<[path := mkFile data true]> (files st)) (stdlog st))
      else (Some (ErrPermission path), st)
  | None => (None, mkWorld (<[path := mkFile data true]> (files st)) (stdlog st))
  end.

End ioutil.

(** [log.Println("OK", path)]. *)
Definition Println (line : string) (st : world) : world :=
  mkWorld (files st) (stdlog st ++ [line]).

(** ** The driver *)

Section Driver.

(** [parser.ParseFile(token.NewFileSet(), path, b, 0)] of [go/parser],
    followed by the order in which [ast.Walk] reaches the type
    declarations. *)
Variable ParseFile : string -> string -> result File.

(** [process] parses and rewrites a file by generating the appropriate
    exported types for raw types.  The result of [ioutil.WriteFile] is
    dropped, as in the source. *)
Definition process (path : string) (st : world) : option error * world :=
  match ioutil.ReadFile path st with
  | Err e => (Some e, st)
  | Ok b =>
      (* Remove code between begin/end pragma comments. *)
      let b := ReplaceAll b in
      let b := TrimRight b in
      (* Re-parse the file without the pragmas. *)
      match ParseFile path b with
      | Err e => (Some e, st)
      | Ok f =>
          (* Iterate over all the nodes. *)
          let g := mkGenerator EmptyString None in
          let g := mkGenerator (w g +:+ b) (err g) in
          let g := mkGenerator (w g +:+ nl +:+ nl) (err g) in
          let g := Walk g f in
          match err g with
          | Some e => (Some e, st)
          | None =>
              (* Rewrite original file. *)
              let st := snd (ioutil.WriteFile path (w g) st) in
              let st := Println ("OK " +:+ path) st in
              (None, st)
          end
      end
  end.

End Driver.

(** ** The tree walk

    The flag [-v] is off, as it is unless given: [trace], [tracef] and
    [traceln] return without logging. *)

Module filepath.

(** [os.IsPathSeparator] on Unix. *)
Definition IsPathSeparator (c : ascii) : bool := Ascii.eqb c "/".

(** The loop of [filepath.Ext], which runs from the last character of the
    path backwards until a separator: [back] holds the characters not yet
    looked at, the last one first, and [suffix] those already passed. *)
Fixpoint Ext_loop (back : list ascii) (suffix : string) : string :=
  match back with
  | [] => EmptyString
  | c :: back' =>
      if IsPathSeparator c then EmptyString
      else if Ascii.eqb c "." then String c suffix
      else Ext_loop back' (String c suffix)
  end.

(** [filepath.Ext]: the suffix beginning at the final dot in the final
    element of the path, empty if there is no dot. *)
Definition Ext (path : string) : string :=
  Ext_loop (rev (list_ascii_of_string path)) EmptyString.

End filepath.

(** [os.FileInfo], of which [walk] asks [IsDir] only. *)
Record FileInfo : Type := mkFileInfo { IsDir : bool }.

(** The errors of [walk]: [fmt.Errorf("file not found: %s", err)], or the
    error of [importsRaw] or of [process] as it is. *)
Inductive walkError : Type :=
| FileNotFound (cause : option error)
| Failed (e : error).

(** The import path [importsRaw] looks for, quotes included. *)
Definition rawImport : string :=
  String (ascii_of_nat 34) ("github.com/boltdb/raw" +:+ String (ascii_of_nat 34) "").

(** How a run ends: [main] returns, or [log.Fatal] prints its argument and
    exits with status 1. *)
Inductive exit : Type :=
| Exit0
| FatalText (msg : string)
| FatalError (e : walkError).

(** One call of [filepath.Walk] to its function: path, info, error. *)
Definition entry : Type := (string * option FileInfo * option error)%type.

Section TreeWalk.

Variable ParseFile : string -> string -> result File.

(** [parser.ParseFile(token.NewFileSet(), path, nil, parser.ImportsOnly)]
    on the text of the file: the [Path.Value] of its imports, in order. *)
Variable ParseImports : string -> string -> result (list string).

(** The calls [filepath.Walk(root, walk)] makes, in order, for as long as
    [walk] returns nil. *)
Variable tree : string -> list entry.

(** [importsRaw] returns true if a given path imports boltdb/raw.  The
    parser is given no source and reads the file. *)
Definition importsRaw (path : string) (st : world) : result bool :=
  match ioutil.ReadFile path st with
  | Err e => Err e
  | Ok src =>
      match ParseImports path src with
      | Err e => Err e
      | Ok imports => Ok (existsb (fun v => String.eqb v rawImport) imports)
      end
  end.

(** [walk] processes any file that imports "github.com/boltdb/raw". *)
Definition walk (path : string) (info : option FileInfo) (err : option error)
    (st : world) : option walkError * world :=
  match info with
  | None => (Some (FileNotFound err), st)
  | Some fi =>
      if IsDir fi then (None, st)
      else if negb (String.eqb (filepath.Ext path) ".go") then (None, st)
      else
        (* Check if file imports boltdb/raw. *)
        match importsRaw path st with
        | Err e => (Some (Failed e), st)
        | Ok false => (None, st)
        | Ok true =>
            (* Process each file. *)
            match process ParseFile path st with
            | (Some e, st') => (Some (Failed e), st')
            | (None, st') => (None, st')
            end
        end
  end.

(** [filepath.Walk(root, walk)] on the calls it makes: it stops at the
    first error and returns it. *)
Fixpoint WalkTree (entries : list entry) (st : world) : option walkError * world :=
  match entries with
  | [] => (None, st)
  | (path, info, err) :: rest =>
      match walk path info err st with
      | (Some e, st') => (Some e, st')
      | (None, st') => WalkTree rest st'
      end
  end.

(** [main], given [flag.Arg(0)]. *)
Definition main (root : string) (st : world) : exit * world :=
  if String.eqb root "" then (FatalText "path required", st)
  else
    match WalkTree (tree root) st with
    | (Some e, st') => (FatalError e, st')
    | (None, st') => (Exit0, st')
    end.

End TreeWalk.

(** ** What the generated methods compute

    The statements that [writeEncodeFunc] and [writeAccessorFuncs] write,
    read as Go on a 64-bit platform, where [int] and [uint] are 64 bits
    wide.  The values of the float types are only copied and stay
    abstract.  Every field has one name. *)

Module Generated.

Local Open Scope Z_scope.

(** The conversion [T(z)] to a signed or an unsigned integer type of
    [bits] bits keeps the low bits of [z]. *)
Definition toSigned (bits z : Z) : Z :=
  (z + 2 ^ (bits - 1)) mod 2 ^ bits - 2 ^ (bits - 1).

Definition toUnsigned (bits z : Z) : Z := z mod 2 ^ bits.

Definition inSigned (bits z : Z) : bool :=
  (- 2 ^ (bits - 1) <=? z) && (z <? 2 ^ (bits - 1)).

Definition inUnsigned (bits z : Z) : bool := (0 <=? z) && (z <? 2 ^ bits).

(** The raw types, as the switches of the emitters group them. *)
Inductive kind : Type :=
| KBool
| KSigned (bits : Z)
| KUnsigned (bits : Z)
| KFloat32
| KFloat64
| KTime
| KDuration
| KString.

Definition kindOf (typ : string) : option kind :=
  if oneOf typ ["bool"] then Some KBool
  else if oneOf typ ["int8"] then Some (KSigned 8)
  else if oneOf typ ["int16"] then Some (KSigned 16)
  else if oneOf typ ["int32"] then Some (KSigned 32)
  else if oneOf typ ["int64"] then Some (KSigned 64)
  else if oneOf typ ["uint8"] then Some (KUnsigned 8)
  else if oneOf typ ["uint16"] then Some (KUnsigned 16)
  else if oneOf typ ["uint32"] then Some (KUnsigned 32)
  else if oneOf typ ["uint64"] then Some (KUnsigned 64)
  else if oneOf typ ["float32"] then Some KFloat32
  else if oneOf typ ["float64"] then Some KFloat64
  else if oneOf typ ["raw.Time"] then Some KTime
  else if oneOf typ ["raw.Duration"] then Some KDuration
  else if oneOf typ ["raw.String"] then Some KString
  else None.

(** The widths that [kindOf] gives are those of Go's integer types. *)
Definition kindOK (k : kind) : Prop :=
  match k with
  | KSigned bits | KUnsigned bits => 0 < bits <= 64
  | _ => True
  end.

(** The window of the string accessors: an array of 0xFFFF bytes at the
    address of the raw struct. *)
Definition windowCap : Z := 65535.

Section Values.

(** The values of [float32] and of [float64]. *)
Variables F32 F64 : Type.

(** A field of the exported struct: [bool], [int], [uint], [float32],
    [float64], [time.Time] as an instant in nanoseconds since the Unix
    epoch, [time.Duration] in nanoseconds, [string]. *)
Inductive extValue : Type :=
| EBool (b : bool)
| EInt (z : Z)
| EUint (z : Z)
| EFloat32 (x : F32)
| EFloat64 (x : F64)
| ETime (ns : Z)
| EDuration (ns : Z)
| EString (s : string).

(** A field of the raw struct: a bool, an integer, a float, or the
    descriptor of a string, offset and length. *)
Inductive rawValue : Type :=
| RBool (b : bool)
| RNum (z : Z)
| RFloat32 (x : F32)
| RFloat64 (x : F64)
| RString (offset length : nat).

(** What a field of the exported struct may hold, and holds again after
    [Encode] and [Decode]. *)
Definition fits (k : kind) (v : extValue) : bool :=
  match k, v with
  | KBool, EBool _ => true
  | KSigned bits, EInt z => inSigned bits z
  | KUnsigned bits, EUint z => inUnsigned bits z
  | KFloat32, EFloat32 _ => true
  | KFloat64, EFloat64 _ => true
  | KTime, ETime ns => inSigned 64 ns
  | KDuration, EDuration ns => inSigned 64 ns
  | KString, EString _ => true
  | _, _ => false
  end.

(** Modelled from the spec: the types [raw.Time] and [raw.Duration] of the
    raw package, which is not among the sources, are signed 64-bit counts
    of nanoseconds; so are Go's [int64], which [UnixNano] returns, and
    [time.Duration]. *)
Definition nanos (z : Z) : Z := toSigned 64 z.

(** Modelled from the spec: the method [Encode] of [raw.String], in the
    raw package and not among the sources.  It appends the bytes of the
    string to the buffer and records in the descriptor where they are:
    [sz] bytes of fixed region and [strs] come before them. *)
Definition String_Encode (sz : nat) (s strs : string) : rawValue * string :=
  (RString (sz + String.length strs) (String.length s), strs +:+ s).

(** Modelled from the spec: the method [String] of [raw.String], in the
    raw package and not among the sources.  It reads the bytes the
    descriptor points at, within a window of [windowCap] bytes over the
    buffer; the spec leaves open what happens beyond the window, and the
    model gives no value there. *)
Definition String_String (sz offset len : nat) (strs : string) : option string :=
  if ((sz <=? offset) && (offset + len <=? sz + String.length strs))%nat
     && (Z.of_nat (offset + len) <=? windowCap)
  then Some (String.substring (offset - sz) len strs)
  else None.

(** The statement of [Encode] for one field.  [sz] is [unsafe.Sizeof(r)]
    and [strs] the bytes appended to [b] so far.
    - bool: [r.n = o.N];
    - numeric: [r.n = T(o.N)], a conversion to the declared type;
    - raw.Time: [r.n = raw.Time(o.N.UnixNano())];
    - raw.Duration: [r.n = raw.Duration(o.N)];
    - raw.String: [r.n.Encode(o.N, &b)]. *)
Definition encodeField (sz : nat) (k : kind) (v : extValue) (strs : string)
  : option (rawValue * string) :=
  match k, v with
  | KBool, EBool b => Some (RBool b, strs)
  | KSigned bits, EInt z => Some (RNum (toSigned bits z), strs)
  | KUnsigned bits, EUint z => Some (RNum (toUnsigned bits z), strs)
  | KFloat32, EFloat32 x => Some (RFloat32 x, strs)
  | KFloat64, EFloat64 x => Some (RFloat64 x, strs)
  | KTime, ETime ns => Some (RNum (nanos ns), strs)
  | KDuration, EDuration ns => Some (RNum (nanos ns), strs)
  | KString, EString s => Some (String_Encode sz s strs)
  | _, _ => None
  end.

(** The accessor of one field.
    - bool and floats: [return r.n];
    - signed: [return int(r.n)]; unsigned: [return uint(r.n)];
    - raw.Time: [return time.Unix(0, int64(r.n)).UTC()];
    - raw.Duration: [return time.Duration(r.n)];
    - raw.String: [return r.n.String(window)]. *)
Definition accessField (sz : nat) (k : kind) (r : rawValue) (strs : string)
  : option extValue :=
  match k, r with
  | KBool, RBool b => Some (EBool b)
  | KSigned _, RNum z => Some (EInt (toSigned 64 z))
  | KUnsigned _, RNum z => Some (EUint (toUnsigned 64 z))
  | KFloat32, RFloat32 x => Some (EFloat32 x)
  | KFloat64, RFloat64 x => Some (EFloat64 x)
  | KTime, RNum z => Some (ETime (nanos z))
  | KDuration, RNum z => Some (EDuration (nanos z))
  | KString, RString offset len =>
      match String_String sz offset len strs with
      | Some s => Some (EString s)
      | None => None
      end
  | _, _ => None
  end.

(** A buffer: the fixed region, which holds the raw struct, and the bytes
    of the strings after it. *)
Record buffer : Type := mkBuffer { fixedRegion : list rawValue; stringRegion : string }.

Fixpoint encodeFields (sz : nat) (fs : list (string * extValue)) (strs : string)
  : option (list rawValue * string) :=
  match fs with
  | [] => Some ([], strs)
  | (typ, v) :: rest =>
      match kindOf typ with
      | None => None
      | Some k =>
          match encodeField sz k v strs with
          | None => None
          | Some (r, strs') =>
              match encodeFields sz rest strs' with
              | None => None
              | Some (rs, out) => Some (r :: rs, out)
              end
          end
      end
  end.

(** [Encode]: the fields in order, then [copy(b, ...)] of the raw struct
    into the head of the buffer. *)
Definition Encode (sz : nat) (fs : list (string * extValue)) : option buffer :=
  match encodeFields sz fs "" with
  | Some (rs, strs) => Some (mkBuffer rs strs)
  | None => None
  end.

Fixpoint decodeFields (sz : nat) (typs : list string) (rs : list rawValue)
    (strs : string) : option (list extValue) :=
  match typs, rs with
  | [], [] => Some []
  | typ :: typs', r :: rs' =>
      match kindOf typ with
      | None => None
      | Some k =>
          match accessField sz k r strs with
          | None => None
          | Some v =>
              match decodeFields sz typs' rs' strs with
              | None => None
              | Some vs => Some (v :: vs)
              end
          end
      end
  | _, _ => None
  end.

(** [Decode]: the head of the buffer seen as the raw struct, and one
    accessor call per field. *)
Definition Decode (sz : nat) (typs : list string) (b : buffer)
  : option (list extValue) :=
  decodeFields sz typs (fixedRegion b) (stringRegion b).

Definition fitsAll (fs : list (string * extValue)) : bool :=
  forallb (fun f => match kindOf (fst f) with
                    | Some k => fits k (snd f)
                    | None => false
                    end) fs.

(** The bytes of the string fields. *)
Fixpoint stringBytes (fs : list (string * extValue)) : nat :=
  match fs with
  | [] => 0%nat
  | (_, EString s) :: rest => (String.length s + stringBytes rest)%nat
  | _ :: rest => stringBytes rest
  end.

End Values.

Arguments EBool {F32 F64} b.
Arguments EInt {F32 F64} z.
Arguments EUint {F32 F64} z.
Arguments EFloat32 {F32 F64} x.
Arguments EFloat64 {F32 F64} x.
Arguments ETime {F32 F64} ns.
Arguments EDuration {F32 F64} ns.
Arguments EString {F32 F64} s.
Arguments RBool {F32 F64} b.
Arguments RNum {F32 F64} z.
Arguments RFloat32 {F32 F64} x.
Arguments RFloat64 {F32 F64} x.
Arguments RString {F32 F64} offset length.
Arguments fits {F32 F64} k v.
Arguments String_Encode {F32 F64} sz s strs.
Arguments encodeField {F32 F64} sz k v strs.
Arguments accessField {F32 F64} sz k r strs.
Arguments mkBuffer {F32 F64} fixedRegion stringRegion.
Arguments fixedRegion {F32 F64} b.
Arguments stringRegion {F32 F64} b.
Arguments encodeFields {F32 F64} sz fs strs.
Arguments Encode {F32 F64} sz fs.
Arguments decodeFields {F32 F64} sz typs rs strs.
Arguments Decode {F32 F64} sz typs b.
Arguments fitsAll {F32 F64} fs.
Arguments stringBytes {F32 F64} fs.

End Generated.

(** ** The vocabulary of the properties *)

(** A writer that leaves what is in the buffer alone and adds its own text
    at the end. *)
Definition Appending {A : Type} (m : Writer A) : Prop :=
  forall buf, m buf = (fst (m ""), buf +:+ snd (m "")).

(** The closed set of raw types. *)
Definition rawTypeNames : list string :=
  ["bool"; "int8"; "int16"; "int32"; "int64"; "uint8"; "uint16"; "uint32";
   "uint64"; "float32"; "float64"; "raw.Time"; "raw.Duration"; "raw.String"].

(** A declaration for which [visitTypeSpec] goes on to generate code. *)
Definition eligible (node : TypeSpec) : bool :=
  match Type_ node with
  | StructType s => isRawStructType s
  | _ => false
  end.

(** The first five writes of [visitTypeSpec]: the begin marker and the
    header. *)
Definition blockBegin : string :=
  "//raw:codegen:begin" +:+ nl +:+ nl +:+ "//" +:+ nl
  +:+ "// DO NOT CHANGE" +:+ nl
  +:+ "// This section has been generated by bolt-rawgen." +:+ nl
  +:+ "//" +:+ nl +:+ nl.

(** Its last write: the end marker. *)
Definition blockEnd : string := "//raw:codegen:end" +:+ nl +:+ nl.

(** The text of the four emitters for a struct. *)
Definition bodyOf (unexp : string) (s : list Field) : string :=
  let exp := tocamelcase unexp in
  snd (writeExportedType exp s "") +:+ snd (writeEncodeFunc unexp exp s "")
  +:+ snd (writeDecodeFunc unexp exp s "") +:+ snd (writeAccessorFuncs unexp s "").

(** What lies between header and end marker in the block of a
    declaration. *)
Definition blockBody (node : TypeSpec) : string :=
  match Type_ node with
  | StructType s => bodyOf (Name node) s
  | _ => ""
  end.

(** The block of a declaration: begin marker and header, the text of the
    emitters, end marker. *)
Definition block (node : TypeSpec) : string :=
  blockBegin +:+ blockBody node +:+ blockEnd.

(** The generated text of a whole file: one block per eligible declaration,
    in the order of the walk. *)
Fixpoint blocks (f : File) : string :=
  match f with
  | [] => ""
  | node :: rest => (if eligible node then block node else "") +:+ blocks rest
  end.

(** [mismatch m q]: [m] differs from [q] at a position inside [q], so it
    cannot match at the start of [q] whatever follows. *)
Fixpoint mismatch (m q : string) : bool :=
  match m, q with
  | String a m', String c q' => if eqFold a c then mismatch m' q' else true
  | _, _ => false
  end.

(** [clean m p]: no match of [m] starts inside [p], whatever follows. *)
Fixpoint clean (m p : string) : bool :=
  match p with
  | EmptyString => true
  | String _ p' => mismatch m p && clean m p'
  end.

(** No character of [s] is a slash.  Go identifiers are made of letters,
    digits and underscores, so names are of this kind. *)
Fixpoint noSlash (s : string) : bool :=
  match s with
  | EmptyString => true
  | String c s' => negb (Ascii.eqb c "/") && noSlash s'
  end.

(** Every character of [s] is in the cutset of [TrimRight]. *)
Fixpoint allCut (s : string) : bool :=
  match s with
  | EmptyString => true
  | String c s' => inCutset c && allCut s'
  end.

(** [m] occurs, case-insensitively, somewhere in [s]. *)
Fixpoint containsFold (m s : string) : bool :=
  hasPrefixFold m s
  || match s with
     | EmptyString => false
     | String _ s' => containsFold m s'
     end.

(** No character of [m] is a newline. *)
Fixpoint oneLine (m : string) : bool :=
  match m with
  | EmptyString => true
  | String a m' => negb (eqFold a (ascii_of_nat 10)) && oneLine m'
  end.

(** The field names of a struct are free of slashes. *)
Definition fieldNamesOK (s : list Field) : bool :=
  forallb (fun f => forallb noSlash (Names f)) s.

(** The names of a declaration are free of slashes. *)
Definition identsOK (node : TypeSpec) : bool :=
  noSlash (Name node)
  && match Type_ node with
     | StructType s => fieldNamesOK s
     | _ => true
     end.

(** The header, from the second character after the begin marker on. *)
Definition headerRest : string :=
  nl +:+ "//" +:+ nl +:+ "// DO NOT CHANGE" +:+ nl
  +:+ "// This section has been generated by bolt-rawgen." +:+ nl
  +:+ "//" +:+ nl +:+ nl.

(** What is left of the generated text once the blocks are dropped: the
    two newlines after each end marker. *)
Fixpoint gaps (f : File) : string :=
  match f with
  | [] => ""
  | node :: rest => (if eligible node then nl +:+ nl else "") +:+ gaps rest
  end.

(** What [process] hands to [ioutil.WriteFile] for a file that reads as
    [src], or the error it returns before writing. *)
Definition generate (ParseFile : string -> string -> result File)
    (path src : string) : result string :=
  let b := TrimRight (ReplaceAll src) in
  match ParseFile path b with
  | Err e => Err e
  | Ok f =>
      let g := Walk (mkGenerator (b +:+ nl +:+ nl) None) f in
      match err g with
      | Some e => Err e
      | None => Ok (w g)
      end
  end.

(** The number of places of [s] at which [m] matches, whatever the case. *)
Fixpoint countFold (m s : string) : nat :=
  (if hasPrefixFold m s then 1 else 0)
  + match s with
    | EmptyString => 0
    | String _ s' => countFold m s'
    end.

(** The number of eligible declarations of a file. *)
Definition eligibleCount (f : File) : nat := List.length (List.filter eligible f).

(** The body generated for a struct without fields: an exported type
    without fields, and [Encode] and [Decode] methods without a statement
    for any field. *)
Definition emptyBody (unexp : string) : string :=
  let exp := tocamelcase unexp in
  ("type " +:+ exp +:+ " struct {" +:+ nl +:+ "}" +:+ nl +:+ nl)
  +:+ ("func (o *" +:+ exp +:+ ") Encode() []byte {" +:+ nl
       +:+ tab +:+ "var r " +:+ unexp +:+ nl
       +:+ tab +:+ "b := make([]byte, unsafe.Sizeof(r), int(unsafe.Sizeof(r)))" +:+ nl
       +:+ tab +:+ "copy(b, (*[unsafe.Sizeof(r)]byte)(unsafe.Pointer(&r))[:])" +:+ nl
       +:+ tab +:+ "return b" +:+ nl
       +:+ "}" +:+ nl +:+ nl)
  +:+ ("func (o *" +:+ exp +:+ ") Decode(b []byte) {" +:+ nl
       +:+ tab +:+ "r := (*" +:+ unexp +:+ ")(unsafe.Pointer(&b[0]))" +:+ nl
       +:+ "}" +:+ nl +:+ nl).

(** The external type of each raw type. *)
Definition externalTypes : list (string * string) :=
  [("bool", "bool");
   ("int8", "int"); ("int16", "int"); ("int32", "int"); ("int64", "int");
   ("uint8", "uint"); ("uint16", "uint"); ("uint32", "uint"); ("uint64", "uint");
   ("float32", "float32"); ("float64", "float64");
   ("raw.Time", "time.Time"); ("raw.Duration", "time.Duration");
   ("raw.String", "string")].

(** The entry of [t] in a table. *)
Fixpoint lookupType (t : string) (table : list (string * string)) : option string :=
  match table with
  | [] => None
  | (k, v) :: rest => if String.eqb t k then Some v else lookupType t rest
  end.

(** The declared names of a struct, each with its declared type, in the
    order of the declaration.  A field declared with several names gives
    several entries, an embedded field none. *)
Definition declaredNames (s : list Field) : list (string * string) :=
  flat_map (fun f => map (fun n => (n, tostr (FieldType f))) (Names f)) s.

(** The line of the exported type for a declared name: a tab, the name
    with its first letter in upper case, the external type. *)
Definition exportedField (d : string * string) : string :=
  tab +:+ tocamelcase (fst d) +:+ " "
  +:+ match lookupType (snd d) externalTypes with Some typ => typ | None => "" end
  +:+ nl.

(** Texts one after the other. *)
Fixpoint joined (l : list string) : string :=
  match l with
  | [] => ""
  | x :: rest => x +:+ joined rest
  end.

(** An ASCII letter in upper case. *)
Definition asciiUpper (c : ascii) : ascii :=
  let n := nat_of_ascii c in
  if (97 <=? n) && (n <=? 122) then ascii_of_nat (n - 32) else c.

(** ** Sample declarations and files *)

(** [type mixed struct { n int32; names []string; t raw.Time }]: the type
    of the second field is not a raw type. *)
Definition mixed : TypeSpec :=
  mkTypeSpec "mixed"
    (StructType [mkField ["n"] (Ident "int32");
                 mkField ["names"] OtherExpr;
                 mkField ["t"] (SelectorExpr (Ident "raw") "Time")]).

(** The declaration [type point struct { x, y int32 }]: one field with two
    names. *)
Definition sharedType : list Field := [mkField ["x"; "y"] (Ident "int32")].

(** A double quote. *)
Definition quote : string := String (ascii_of_nat 34) "".

(** The package clause and the import that makes a file a candidate. *)
Definition geoHeader : string :=
  "package geo" +:+ nl +:+ nl
  +:+ "import _ " +:+ quote +:+ "github.com/boltdb/raw" +:+ quote +:+ nl +:+ nl.

Definition pointText : string :=
  "type point struct {" +:+ nl +:+ tab +:+ "x int32" +:+ nl
  +:+ tab +:+ "y int32" +:+ nl +:+ "}".

Definition sizeText : string :=
  "type size struct {" +:+ nl +:+ tab +:+ "w uint16" +:+ nl
  +:+ tab +:+ "h uint16" +:+ nl +:+ "}".

Definition namesText : string :=
  "type names struct {" +:+ nl +:+ tab +:+ "all []string" +:+ nl +:+ "}".

(** The declarations of [pointText], [sizeText] and [namesText] as
    [go/parser] gives them. *)
Definition point : TypeSpec :=
  mkTypeSpec "point"
    (StructType [mkField ["x"] (Ident "int32"); mkField ["y"] (Ident "int32")]).

Definition size : TypeSpec :=
  mkTypeSpec "size"
    (StructType [mkField ["w"] (Ident "uint16"); mkField ["h"] (Ident "uint16")]).

Definition names : TypeSpec :=
  mkTypeSpec "names" (StructType [mkField ["all"] OtherExpr]).

(** One raw struct. *)
Definition pointSrc : string := geoHeader +:+ pointText.

(** Two raw structs. *)
Definition geoSrc : string := geoHeader +:+ pointText +:+ nl +:+ nl +:+ sizeText.

(** A struct that is not raw. *)
Definition namesSrc : string := geoHeader +:+ namesText.

(** A raw struct under a comment that mentions the begin marker. *)
Definition noteSrc : string :=
  geoHeader +:+ "// generated code follows //raw:codegen:begin" +:+ nl
  +:+ pointText.

(** [noteSrc] up to the marker of its comment, trimmed. *)
Definition noteCut : string := geoHeader +:+ "// generated code follows".

(** [go/parser] on the sample files: their type declarations.  Any other
    text is answered by an error; nothing below relies on that. *)
Definition sampleParse (path src : string) : result File :=
  if String.eqb src pointSrc then Ok [point]
  else if String.eqb src geoSrc then Ok [point; size]
  else if String.eqb src namesSrc then Ok [names]
  else if String.eqb src noteSrc then Ok [point]
  else if String.eqb src noteCut then Ok []
  else Err (ErrParse "not a sample file").

(** A world with one file, [geo.go]. *)
Definition geoWorld (src : string) (writable : bool) : world :=
  mkWorld {[ "geo.go" := mkFile src writable ]} [].

(** The declaration [type Ảnh struct { n int32 }]; its name starts with
    U+1EA2, LATIN CAPITAL LETTER A WITH HOOK ABOVE, three bytes in UTF-8. *)
Definition anhName : string := "Ảnh".

Definition anh : TypeSpec :=
  mkTypeSpec anhName (StructType [mkField ["n"] (Ident "int32")]).

Definition anhSrc : string :=
  geoHeader +:+ "type Ảnh struct {" +:+ nl +:+ tab +:+ "n int32" +:+ nl +:+ "}".

(** [go/parser] on [anhSrc]. *)
Definition anhParse (path src : string) : result File :=
  if String.eqb src anhSrc then Ok [anh] else Err (ErrParse "not a sample file").

(** A record with a field of every raw type.  Floats are given by their
    bits. *)
Definition everyTag (small : Z) : list (string * Generated.extValue Z Z) :=
  [("bool", Generated.EBool true);
   ("int8", Generated.EInt small);
   ("int16", Generated.EInt (-2));
   ("int32", Generated.EInt 70000);
   ("int64", Generated.EInt (-5000000000));
   ("uint8", Generated.EUint 255);
   ("uint16", Generated.EUint 65535);
   ("uint32", Generated.EUint 4000000000);
   ("uint64", Generated.EUint 18446744073709551615);
   ("float32", Generated.EFloat32 1069547520%Z);
   ("float64", Generated.EFloat64 4609434218613702656%Z);
   ("raw.Time", Generated.ETime 1400000000000000000);
   ("raw.Duration", Generated.EDuration 1500000000);
   ("raw.String", Generated.EString "bolt")].

(** The scenario [type Bad struct { n int32 }]: a raw struct that is
    exported. *)
Definition bad : TypeSpec :=
  mkTypeSpec "Bad" (StructType [mkField ["n"] (Ident "int32")]).

Definition badSrc : string :=
  geoHeader +:+ "type Bad struct {" +:+ nl +:+ tab +:+ "n int32" +:+ nl +:+ "}".

(** [go/parser] on [badSrc] and on [pointSrc]. *)
Definition badParse (path src : string) : result File :=
  if String.eqb src badSrc then Ok [bad]
  else if String.eqb src pointSrc then Ok [point]
  else Err (ErrParse "not a sample file").

(** The types of the numeric case of [writeEncodeFunc]. *)
Definition numericType (t : string) : bool :=
  oneOf t ["int8"; "int16"; "int32"; "int64"; "uint8"; "uint16"; "uint32";
           "uint64"; "float32"; "float64"].

(** A field of a numeric type declared with two names or more, as in
    [x, y int32]. *)
Definition sharesNumeric (f : Field) : bool :=
  numericType (tostr (FieldType f)) && (2 <=? List.length (Names f)).

(** No character of [s] is a dot. *)
Fixpoint noDot (s : string) : bool :=
  match s with
  | EmptyString => true
  | String c s' => negb (Ascii.eqb c ".") && noDot s'
  end.

(** The identifiers of a type expression hold no dot, as Go identifiers
    do not. *)
Fixpoint dotFree (e : Expr) : bool :=
  match e with
  | Ident name => noDot name
  | SelectorExpr x sel => dotFree x && noDot sel
  | _ => true
  end.

(** The statement of [Decode] for a declared name. *)
Definition decodeLine (d : string * string) : string :=
  tab +:+ "o." +:+ tocamelcase (fst d) +:+ " = r." +:+ tocamelcase (fst d)
  +:+ "()" +:+ nl.

(** [type unit struct{}]. *)
Definition unitDecl : TypeSpec := mkTypeSpec "unit" (StructType []).

(** The raw types that are written as one identifier. *)
Definition builtinTypes : list string :=
  ["bool"; "int8"; "int16"; "int32"; "int64"; "uint8"; "uint16"; "uint32";
   "uint64"; "float32"; "float64"].

(** The raw types that are selected from the package [raw]. *)
Definition packageTypes : list string := ["Time"; "Duration"; "String"].

(** The accessors written for one declared name. *)
Definition accessorsOf (unexp : string) (d : string * string) : string :=
  snd (writeAccessorFuncs_names unexp (snd d) [fst d] "").

(** The path of a call of [filepath.Walk] to its function. *)
Definition entryPath (e : entry) : string := fst (fst e).

(** The line [process] logs for a path. *)
Definition okLine (path : string) : string := "OK " +:+ path.

(** A regular file and a directory, as [os.FileInfo]. *)
Definition regular : option FileInfo := Some (mkFileInfo false).
Definition directory : option FileInfo := Some (mkFileInfo true).

(** The imports of the sample files: those that start with the header
    import the package, the others nothing. *)
Definition sampleImports (path src : string) : result (list string) :=
  if String.prefix geoHeader src then Ok [rawImport] else Ok [].

(** A tree with [a/point.go], [b/bad.go], [b/notes.txt] and [c/point.go],
    and the calls [filepath.Walk] makes for the root [.], in lexical
    order. *)
Definition treeWorld : world :=
  mkWorld
    (<["a/point.go" := mkFile pointSrc true]>
       (<["b/bad.go" := mkFile badSrc true]>
          (<["b/notes.txt" := mkFile "to do" true]>
             {[ "c/point.go" := mkFile pointSrc true ]})))
    [].

Definition sampleTree (root : string) : list entry :=
  [ (root, directory, None);
    ("a", directory, None);
    ("a/point.go", regular, None);
    ("b", directory, None);
    ("b/bad.go", regular, None);
    ("b/notes.txt", regular, None);
    ("c", directory, None);
    ("c/point.go", regular, None) ].

(** * Properties *)

(** ** Strings *)

Module Str.

Lemma app_cons (x : ascii) (a b : string) :
  String x a +:+ b = String x (a +:+ b).
Proof. reflexivity. Qed.

Lemma app_nil_l (a : string) : "" +:+ a = a.
Proof. reflexivity. Qed.

Lemma app_assoc (a b c : string) : (a +:+ b) +:+ c = a +:+ b +:+ c.
Proof.
  induction a as [|x a IH]; [reflexivity|].
  now rewrite !app_cons, IH.
Qed.

Lemma app_nil_r (a : string) : a +:+ "" = a.
Proof.
  induction a as [|x a IH]; [reflexivity|].
  now rewrite app_cons, IH.
Qed.

Lemma length_app (a b : string) :
  String.length (a +:+ b) = String.length a + String.length b.
Proof.
  induction a as [|x a IH]; [reflexivity|].
  rewrite app_cons. simpl. now rewrite IH.
Qed.

End Str.

(** ** Every emitter only appends to the buffer *)

Lemma Appending_ret {A : Type} (a : A) : Appending (ret a).
Proof. intros buf. unfold ret. simpl. now rewrite Str.app_nil_r. Qed.

Lemma Appending_Fprint (s : string) : Appending (Fprint s).
Proof. intros buf. reflexivity. Qed.

Lemma Appending_bind {A B : Type} (m : Writer A) (k : A -> Writer B) :
  Appending m -> (forall a, Appending (k a)) -> Appending (bind m k).
Proof.
  intros Hm Hk buf. unfold bind.
  rewrite (Hm buf). destruct (m "") as [a o] eqn:E. simpl.
  rewrite (Hk a (buf +:+ o)), (Hk a o). simpl.
  now rewrite Str.app_assoc.
Qed.

Lemma Appending_orReturn m e k :
  Appending m -> Appending k -> Appending (orReturn m e k).
Proof.
  intros Hm Hk. unfold orReturn. apply Appending_bind; [assumption|].
  intros [x|]; [apply Appending_ret | assumption].
Qed.

(** The output of a bind is the output of its parts, one after the other. *)
Lemma bind_out {A B : Type} (m : Writer A) (k : A -> Writer B) :
  Appending m -> (forall a, Appending (k a)) ->
  bind m k "" = (fst (k (fst (m "")) ""), snd (m "") +:+ snd (k (fst (m "")) "")).
Proof.
  intros Hm Hk. unfold bind. destruct (m "") as [a o] eqn:E. simpl.
  now rewrite (Hk a o).
Qed.

Ltac appending :=
  repeat match goal with
    | |- Appending (ret _) => apply Appending_ret
    | |- Appending (Fprint _) => apply Appending_Fprint
    | |- Appending (orReturn _ _ _) => apply Appending_orReturn
    | |- Appending (bind _ _) => apply Appending_bind; [| intros ? ]
    | |- Appending (match ?r with Some _ => _ | None => _ end) => destruct r
    | |- Appending (if ?c then _ else _) => destruct c
    | H : Appending ?m |- Appending ?m => exact H
    | H : forall x, Appending (?m x) |- Appending (?m _) => apply H
    end.

Lemma writeExportedType_names_appending typ names :
  Appending (writeExportedType_names typ names).
Proof. induction names as [|n ns IH]; simpl; appending. Qed.

Lemma writeExportedType_fields_appending fields :
  Appending (writeExportedType_fields fields).
Proof.
  induction fields as [|f rest IH]; simpl; [appending|].
  destruct (exportedTypeOf _); appending.
  apply writeExportedType_names_appending.
Qed.

Lemma writeExportedType_appending name node :
  Appending (writeExportedType name node).
Proof.
  unfold writeExportedType. appending.
  apply writeExportedType_fields_appending.
Qed.

Lemma writeEncodeFunc_names_appending ftyp typ names :
  Appending (writeEncodeFunc_names ftyp typ names).
Proof.
  revert typ. induction names as [|n ns IH]; intros typ; simpl; appending;
    apply IH.
Qed.

Lemma writeEncodeFunc_fields_appending fields :
  Appending (writeEncodeFunc_fields fields).
Proof.
  induction fields as [|f rest IH]; simpl; appending.
  apply writeEncodeFunc_names_appending.
Qed.

Lemma writeEncodeFunc_appending unexp exp node :
  Appending (writeEncodeFunc unexp exp node).
Proof.
  unfold writeEncodeFunc. appending. apply writeEncodeFunc_fields_appending.
Qed.

Lemma writeDecodeFunc_names_appending names :
  Appending (writeDecodeFunc_names names).
Proof. induction names as [|n ns IH]; simpl; appending. Qed.

Lemma writeDecodeFunc_fields_appending fields :
  Appending (writeDecodeFunc_fields fields).
Proof.
  induction fields as [|f rest IH]; simpl; appending.
  apply writeDecodeFunc_names_appending.
Qed.

Lemma writeDecodeFunc_appending unexp exp node :
  Appending (writeDecodeFunc unexp exp node).
Proof.
  unfold writeDecodeFunc. appending. apply writeDecodeFunc_fields_appending.
Qed.

Lemma writeAccessorFuncs_names_appending name ftyp names :
  Appending (writeAccessorFuncs_names name ftyp names).
Proof. induction names as [|n ns IH]; simpl; appending. Qed.

Lemma writeAccessorFuncs_appending name node :
  Appending (writeAccessorFuncs name node).
Proof.
  induction node as [|f rest IH]; simpl; appending.
  apply writeAccessorFuncs_names_appending.
Qed.

Lemma visitTypeSpec_appending node : Appending (visitTypeSpec node).
Proof.
  unfold visitTypeSpec. destruct (Type_ node); try apply Appending_ret.
  destruct (negb _); [apply Appending_ret|].
  destruct (Name node); [apply Appending_ret|].
  destruct (unicode.IsUpper _); [apply Appending_ret|].
  appending.
  - apply writeExportedType_appending.
  - apply writeEncodeFunc_appending.
  - apply writeDecodeFunc_appending.
  - apply writeAccessorFuncs_appending.
Qed.

(** ** The classifier *)

Lemma oneOf_In (t : string) (labels : list string) :
  oneOf t labels = true <-> In t labels.
Proof.
  unfold oneOf. rewrite existsb_exists. split.
  - intros (x & Hx & E). apply String.eqb_eq in E. now subst.
  - intros H. exists t. split; [assumption | apply String.eqb_refl].
Qed.

Ltac split_switch t :=
  unfold oneOf; cbn [existsb];
  repeat match goal with
    | |- context [String.eqb t ?x] =>
        let E := fresh "E" in
        destruct (String.eqb t x) eqn:E; cbn [orb andb]; try reflexivity
    end.

Lemma isRawStructType_forallb (fields : list Field) :
  isRawStructType fields
  = forallb (fun f => oneOf (tostr (FieldType f)) rawTypeNames) fields.
Proof.
  induction fields as [|f rest IH]; [reflexivity|].
  cbn [isRawStructType forallb]. rewrite <- IH.
  generalize (tostr (FieldType f)) as t. intros t.
  unfold rawTypeNames. split_switch t.
Qed.

Lemma isRawStructType_Forall (fields : list Field) :
  isRawStructType fields = true
  <-> Forall (fun f => In (tostr (FieldType f)) rawTypeNames) fields.
Proof.
  rewrite isRawStructType_forallb, List.forallb_forall, List.Forall_forall.
  split; intros H f Hf; apply oneOf_In, H, Hf.
Qed.

Lemma exportedTypeOf_raw (t : string) :
  oneOf t rawTypeNames = true <-> exportedTypeOf t <> None.
Proof.
  unfold exportedTypeOf, rawTypeNames. split_switch t; split; congruence.
Qed.

Lemma Visit_skip (g : generator) (node : TypeSpec) :
  (forall buf, visitTypeSpec node buf = (None, buf)) -> Visit g node = g.
Proof.
  intros H. unfold Visit. destruct g as [buf [e|]]; simpl; [reflexivity|].
  now rewrite H.
Qed.

Lemma visitTypeSpec_ineligible (node : TypeSpec) :
  eligible node = false -> forall buf, visitTypeSpec node buf = (None, buf).
Proof.
  unfold eligible, visitTypeSpec. intros H buf.
  destruct (Type_ node); try reflexivity. now rewrite H.
Qed.

(** C6.  A struct declaration with a field whose declared type is outside
    the closed set of raw types is classified as not raw; [visitTypeSpec]
    returns no error for it and writes nothing, so the generator is left
    as it was: the declaration is skipped and gets no generated block,
    whatever its other fields are. *)
Theorem closed_type_set_skipped (node : TypeSpec) (s : list Field) (f : Field) :
  Type_ node = StructType s ->
  In f s ->
  ~ In (tostr (FieldType f)) rawTypeNames ->
  isRawStructType s = false
  /\ (forall buf, visitTypeSpec node buf = (None, buf))
  /\ (forall g, Visit g node = g).
Proof.
  intros Hs Hf Hout.
  assert (Hraw : isRawStructType s = false).
  { destruct (isRawStructType s) eqn:E; [|reflexivity].
    apply isRawStructType_Forall in E. rewrite List.Forall_forall in E.
    exfalso. apply Hout, E, Hf. }
  assert (Hskip : forall buf, visitTypeSpec node buf = (None, buf)).
  { apply visitTypeSpec_ineligible. unfold eligible. now rewrite Hs. }
  split; [assumption|]. split; [assumption|].
  intros g. now apply Visit_skip.
Qed.

Lemma closed_type_set_skipped_witness :
  isRawStructType
    [mkField ["n"] (Ident "int32"); mkField ["names"] OtherExpr;
     mkField ["t"] (SelectorExpr (Ident "raw") "Time")] = false
  /\ (forall buf, visitTypeSpec mixed buf = (None, buf))
  /\ (forall g, Visit g mixed = g).
Proof.
  apply (closed_type_set_skipped mixed _ (mkField ["names"] OtherExpr)).
  - reflexivity.
  - simpl. right. left. reflexivity.
  - vm_compute. intros H. decompose [or] H; try discriminate; assumption.
Defined.

(** ** The emitters on raw structs *)

Lemma fst_bind {A B : Type} (m : Writer A) (k : A -> Writer B) :
  Appending m -> (forall a, Appending (k a)) ->
  fst (bind m k "") = fst (k (fst (m "")) "").
Proof. intros Hm Hk. now rewrite bind_out. Qed.

Lemma snd_bind {A B : Type} (m : Writer A) (k : A -> Writer B) :
  Appending m -> (forall a, Appending (k a)) ->
  snd (bind m k "") = snd (m "") +:+ snd (k (fst (m "")) "").
Proof. intros Hm Hk. now rewrite bind_out. Qed.

Ltac split_switch_in H t :=
  unfold oneOf in *; cbn [existsb] in *;
  repeat match goal with
    | |- context [String.eqb t ?x] =>
        let E := fresh "E" in
        destruct (String.eqb t x) eqn:E; cbn [orb andb] in *
    end;
  try discriminate H.

Lemma writeExportedType_fields_raw (s : list Field) :
  isRawStructType s = true -> fst (writeExportedType_fields s "") = None.
Proof.
  rewrite isRawStructType_forallb.
  induction s as [|f rest IH]; [reflexivity|].
  cbn [forallb]. intros H. apply andb_prop in H as [Ht Hrest].
  cbn [writeExportedType_fields].
  destruct (exportedTypeOf (tostr (FieldType f))) as [typ|] eqn:E.
  - rewrite fst_bind; [now apply IH | apply writeExportedType_names_appending |].
    intros _. apply writeExportedType_fields_appending.
  - apply exportedTypeOf_raw in Ht. contradiction.
Qed.

(** [writeExportedType] never takes its "invalid raw type" branch on a
    struct the classifier accepts. *)
Lemma writeExportedType_raw (name : string) (s : list Field) :
  isRawStructType s = true -> fst (writeExportedType name s "") = None.
Proof.
  intros H. unfold writeExportedType.
  rewrite fst_bind; [| appending | intros; appending; apply writeExportedType_fields_appending].
  rewrite fst_bind; [| apply writeExportedType_fields_appending | intros; appending].
  now rewrite (writeExportedType_fields_raw s H).
Qed.

Lemma writeAccessorFuncs_names_raw (name t : string) (names : list string) :
  oneOf t rawTypeNames = true ->
  fst (writeAccessorFuncs_names name t names "") = None.
Proof.
  intros H. induction names as [|n ns IH]; [reflexivity|].
  cbn [writeAccessorFuncs_names]. unfold rawTypeNames in H.
  split_switch_in H t;
    repeat (rewrite fst_bind;
            [| appending | intros; appending;
               apply writeAccessorFuncs_names_appending]);
    exact IH.
Qed.

(** Neither does [writeAccessorFuncs]. *)
Lemma writeAccessorFuncs_raw (name : string) (s : list Field) :
  isRawStructType s = true -> fst (writeAccessorFuncs name s "") = None.
Proof.
  rewrite isRawStructType_forallb.
  induction s as [|f rest IH]; [reflexivity|].
  cbn [forallb]. intros H. apply andb_prop in H as [Ht Hrest].
  cbn [writeAccessorFuncs].
  rewrite fst_bind;
    [| apply writeAccessorFuncs_names_appending
     | intros; appending; apply writeAccessorFuncs_appending].
  rewrite (writeAccessorFuncs_names_raw name _ (Names f) Ht). now apply IH.
Qed.

(** [writeDecodeFunc] has no error branch at all. *)
Lemma writeDecodeFunc_ok (unexp exp : string) (s : list Field) :
  fst (writeDecodeFunc unexp exp s "") = None.
Proof.
  unfold writeDecodeFunc.
  repeat (rewrite fst_bind;
          [| appending; apply writeDecodeFunc_fields_appending
           | intros; appending; apply writeDecodeFunc_fields_appending]).
  reflexivity.
Qed.

Lemma writeEncodeFunc_names_single (t : string) (names : list string) :
  oneOf t rawTypeNames = true -> (List.length names <= 1)%nat ->
  fst (writeEncodeFunc_names t t names "") = None.
Proof.
  intros H Hlen. destruct names as [|n [|n' ns]]; [reflexivity | | simpl in Hlen; lia].
  cbn [writeEncodeFunc_names]. unfold rawTypeNames in H.
  split_switch_in H t;
    rewrite fst_bind; try reflexivity; try appending; intros; appending.
Qed.

(** [writeEncodeFunc] does not take its "invalid raw type" branch either,
    as long as no field of the struct has two names. *)
Lemma writeEncodeFunc_raw_single (unexp exp : string) (s : list Field) :
  isRawStructType s = true ->
  forallb (fun f => (List.length (Names f) <=? 1)%nat) s = true ->
  fst (writeEncodeFunc unexp exp s "") = None.
Proof.
  intros Hraw Hone. unfold writeEncodeFunc.
  repeat (rewrite fst_bind;
          [| appending; apply writeEncodeFunc_fields_appending
           | intros; appending; apply writeEncodeFunc_fields_appending]).
  assert (E : fst (writeEncodeFunc_fields s "") = None).
  { rewrite isRawStructType_forallb in Hraw.
    induction s as [|f rest IH]; [reflexivity|].
    cbn [forallb] in Hraw, Hone.
    apply andb_prop in Hraw as [Ht Hrest]. apply andb_prop in Hone as [Hf Hone].
    cbn [writeEncodeFunc_fields].
    rewrite fst_bind;
      [| apply writeEncodeFunc_names_appending
       | intros; appending; apply writeEncodeFunc_fields_appending].
    rewrite (writeEncodeFunc_names_single _ _ Ht); [now apply IH|].
    now apply Nat.leb_le. }
  rewrite E.
  repeat (rewrite fst_bind; [| appending | intros; appending]).
  reflexivity.
Qed.

(** C10.  On [type point struct { x, y int32 }], which the classifier
    accepts, the encode emitter reaches its "invalid raw type" branch at
    the second name, and [visitTypeSpec] fails with "generate encode
    func". *)
Theorem encode_default_branch_reached :
  isRawStructType sharedType = true
  /\ fst (writeExportedType "Point" sharedType "") = None
  /\ fst (writeEncodeFunc "point" "Point" sharedType "")
     = Some (ErrInvalidRawType "int32")
  /\ fst (visitTypeSpec (mkTypeSpec "point" (StructType sharedType)) "")
     = Some (ErrGenerate "generate encode func" sharedType).
Proof. repeat split; vm_compute; reflexivity. Qed.

(** ** What a visit appends *)

Lemma Fprint_bind_out {B : Type} (s : string) (k : Writer B) :
  Appending k -> (Fprint s ;; k) "" = (fst (k ""), s +:+ snd (k "")).
Proof. intros Hk. unfold bind, Fprint. now rewrite (Hk ("" +:+ s)). Qed.

Lemma orReturn_out m e k :
  Appending m -> Appending k ->
  orReturn m e k ""
  = match fst (m "") with
    | Some _ => (Some e, snd (m ""))
    | None => (fst (k ""), snd (m "") +:+ snd (k ""))
    end.
Proof.
  intros Hm Hk. unfold orReturn, bind. destruct (m "") as [[x|] o]; simpl.
  - reflexivity.
  - now rewrite (Hk o).
Qed.

Create HintDb appending.
#[export] Hint Resolve writeExportedType_appending writeEncodeFunc_appending
  writeDecodeFunc_appending writeAccessorFuncs_appending Appending_ret
  Appending_Fprint Appending_orReturn visitTypeSpec_appending : appending.

Lemma Appending_seq {B : Type} (s : string) (k : Writer B) :
  Appending k -> Appending (Fprint s ;; k).
Proof. intros Hk. apply Appending_bind; [apply Appending_Fprint | intros _; exact Hk]. Qed.

#[export] Hint Resolve Appending_seq : appending.

Lemma orReturn_None m e k :
  Appending m -> Appending k ->
  fst (orReturn m e k "") = None ->
  fst (m "") = None /\ fst (k "") = None
  /\ snd (orReturn m e k "") = snd (m "") +:+ snd (k "").
Proof.
  intros Hm Hk. rewrite orReturn_out by assumption.
  destruct (fst (m "")); [discriminate|]. cbn [fst snd]. auto.
Qed.

(** The sequence of writes of [visitTypeSpec], over any four emitters. *)
Lemma block_out (h1 h2 h3 h4 h5 t : string) m1 m2 m3 m4 e1 e2 e3 e4 :
  Appending m1 -> Appending m2 -> Appending m3 -> Appending m4 ->
  let prog :=
    (Fprint h1 ;; Fprint h2 ;; Fprint h3 ;; Fprint h4 ;; Fprint h5 ;;
     orReturn m1 e1 (orReturn m2 e2 (orReturn m3 e3 (orReturn m4 e4
       (Fprint t ;; ret (@None error)))))) in
  fst (prog "") = None ->
  snd (prog "")
  = (h1 +:+ h2 +:+ h3 +:+ h4 +:+ h5) +:+
    (snd (m1 "") +:+ snd (m2 "") +:+ snd (m3 "") +:+ snd (m4 "")) +:+ t.
Proof.
  intros H1 H2 H3 H4 prog. subst prog.
  assert (Hk4 : Appending (Fprint t ;; ret (@None error))) by auto with appending.
  assert (Hk3 : Appending (orReturn m4 e4 (Fprint t ;; ret (@None error))))
    by auto with appending.
  assert (Hk2 : Appending (orReturn m3 e3 (orReturn m4 e4 (Fprint t ;; ret (@None error)))))
    by auto with appending.
  assert (Hk1 : Appending (orReturn m2 e2 (orReturn m3 e3 (orReturn m4 e4
                  (Fprint t ;; ret (@None error)))))) by auto with appending.
  repeat (rewrite Fprint_bind_out; [| auto 10 with appending]).
  cbn [fst snd]. intros H.
  apply orReturn_None in H as (_ & H & ->); [| assumption ..].
  apply orReturn_None in H as (_ & H & ->); [| assumption ..].
  apply orReturn_None in H as (_ & H & ->); [| assumption ..].
  apply orReturn_None in H as (_ & H & ->); [| assumption ..].
  rewrite Fprint_bind_out by auto with appending. cbn [snd ret].
  rewrite Str.app_nil_r. now rewrite !Str.app_assoc.
Qed.

(** A visit that goes through appends nothing for a declaration that is
    not eligible and one whole block for one that is. *)
Lemma visitTypeSpec_ok (node : TypeSpec) :
  fst (visitTypeSpec node "") = None ->
  snd (visitTypeSpec node "") = (if eligible node then block node else "").
Proof.
  unfold visitTypeSpec, eligible, block, blockBody.
  destruct (Type_ node) as [| |s|]; try reflexivity.
  destruct (isRawStructType s); [|reflexivity]. cbn [negb].
  destruct (Name node) as [|c rest] eqn:EN; [discriminate|].
  destruct (unicode.IsUpper _); [discriminate|].
  intros H. apply block_out in H; [| auto with appending ..].
  rewrite H. unfold bodyOf. reflexivity.
Qed.

Lemma Visit_ok (g : generator) (node : TypeSpec) :
  err g = None -> err (Visit g node) = None ->
  w (Visit g node) = w g +:+ (if eligible node then block node else "").
Proof.
  intros Hg. unfold Visit. rewrite Hg.
  rewrite (visitTypeSpec_appending node (w g)).
  cbn [err w]. intros H. now rewrite (visitTypeSpec_ok node H).
Qed.

Lemma Walk_cons (g : generator) (node : TypeSpec) (rest : File) :
  Walk g (node :: rest) = Walk (Visit g node) rest.
Proof. reflexivity. Qed.

Lemma Walk_err (f : File) (g : generator) (e : error) :
  err g = Some e -> Walk g f = g.
Proof.
  revert g. induction f as [|node rest IH]; intros g Hg; [reflexivity|].
  rewrite Walk_cons.
  assert (HV : Visit g node = g) by (unfold Visit; now rewrite Hg).
  rewrite HV. now apply IH.
Qed.

(** A walk that ends without error has appended the blocks of the file. *)
Lemma Walk_ok (f : File) (g : generator) :
  err g = None -> err (Walk g f) = None -> w (Walk g f) = w g +:+ blocks f.
Proof.
  revert g. induction f as [|node rest IH]; intros g Hg Hend.
  - cbn. now rewrite Str.app_nil_r.
  - rewrite Walk_cons in *.
    destruct (err (Visit g node)) as [e|] eqn:EV.
    + rewrite (Walk_err rest _ e EV) in Hend. congruence.
    + rewrite (IH _ EV Hend), (Visit_ok g node Hg EV).
      cbn [blocks]. now rewrite Str.app_assoc.
Qed.

Lemma Walk_ineligible (f : File) (g : generator) :
  forallb (fun node => negb (eligible node)) f = true -> Walk g f = g.
Proof.
  revert g. induction f as [|node rest IH]; intros g H; [reflexivity|].
  cbn [forallb] in H. apply andb_prop in H as [Hn Hrest].
  rewrite Walk_cons.
  rewrite Visit_skip; [now apply IH|].
  apply visitTypeSpec_ineligible. now destruct (eligible node).
Qed.

Lemma blocks_ineligible (f : File) :
  forallb (fun node => negb (eligible node)) f = true -> blocks f = "".
Proof.
  induction f as [|node rest IH]; intros H; [reflexivity|].
  cbn [forallb] in H. apply andb_prop in H as [Hn Hrest].
  cbn [blocks]. destruct (eligible node); [discriminate|]. now apply IH.
Qed.

(** ** The regular expression *)

Lemma length_skip (n : nat) (s : string) :
  String.length (skip n s) <= String.length s.
Proof.
  revert s. induction n as [|n IH]; intros [|c s]; simpl; try lia.
  specialize (IH s). lia.
Qed.

Lemma length_indexFold (m s rest : string) :
  indexFold m s = Some rest -> String.length rest <= String.length s.
Proof.
  induction s as [|c s IH]; cbn [indexFold].
  - destruct (hasPrefixFold m ""); [|discriminate].
    intros [= <-]. apply length_skip.
  - destruct (hasPrefixFold m (String c s)).
    + intros [= <-]. apply length_skip.
    + intros H. apply IH in H. simpl. lia.
Qed.

(** A match is not empty: what follows it is shorter than the text. *)
Lemma matchBlock_shorter (s rest : string) :
  matchBlock s = Some rest -> String.length rest < String.length s.
Proof.
  unfold matchBlock. destruct (hasPrefixFold beginMarker s); [|discriminate].
  pose proof (length_skip (String.length beginMarker) s) as Hs.
  destruct (skip _ s) as [|c t]; [discriminate|].
  intros H. apply length_indexFold in H. simpl in Hs. lia.
Qed.

Lemma ReplaceAll_fuel_enough (n m : nat) (s : string) :
  String.length s <= n -> String.length s <= m ->
  ReplaceAll_fuel n s = ReplaceAll_fuel m s.
Proof.
  revert m s. induction n as [|n IH]; intros m s Hn Hm.
  - destruct s; [|simpl in Hn; lia]. now destruct m.
  - destruct s as [|c s]; [now destruct m|].
    destruct m as [|m]; [simpl in Hm; lia|].
    cbn [ReplaceAll_fuel]. simpl in Hn, Hm.
    destruct (matchBlock (String c s)) as [rest|] eqn:E.
    + apply matchBlock_shorter in E. simpl in E. apply IH; lia.
    + f_equal. apply IH; lia.
Qed.

(** The equations of the replacement, free of fuel. *)
Lemma ReplaceAll_nil : ReplaceAll "" = "".
Proof. reflexivity. Qed.

Lemma ReplaceAll_cons (c : ascii) (s : string) :
  ReplaceAll (String c s)
  = match matchBlock (String c s) with
    | Some rest => ReplaceAll rest
    | None => String c (ReplaceAll s)
    end.
Proof.
  unfold ReplaceAll. cbn [String.length ReplaceAll_fuel].
  destruct (matchBlock (String c s)) as [rest|] eqn:E.
  - apply matchBlock_shorter in E. simpl in E.
    apply ReplaceAll_fuel_enough; lia.
  - reflexivity.
Qed.

Lemma mismatch_app (m q x : string) :
  mismatch m q = true -> mismatch m (q +:+ x) = true.
Proof.
  revert q. induction m as [|a m IH]; intros [|c q]; try discriminate.
  rewrite Str.app_cons. cbn [mismatch].
  destruct (eqFold a c); [apply IH | reflexivity].
Qed.

Lemma mismatch_hasPrefixFold (m q x : string) :
  mismatch m q = true -> hasPrefixFold m (q +:+ x) = false.
Proof.
  revert q. induction m as [|a m IH]; intros [|c q]; try discriminate.
  rewrite Str.app_cons. cbn [mismatch hasPrefixFold].
  destruct (eqFold a c); [apply IH | reflexivity].
Qed.

Lemma clean_app (m p q : string) :
  clean m p = true -> clean m q = true -> clean m (p +:+ q) = true.
Proof.
  intros Hp Hq. induction p as [|c p IH]; [assumption|].
  cbn [clean] in Hp. apply andb_prop in Hp as [Hc Hp].
  rewrite Str.app_cons. cbn [clean]. rewrite <- Str.app_cons.
  rewrite (mismatch_app _ _ _ Hc). now apply IH.
Qed.

Lemma indexFold_clean (m p x : string) :
  clean m p = true -> indexFold m (p +:+ x) = indexFold m x.
Proof.
  induction p as [|c p IH]; [reflexivity|].
  cbn [clean]. intros H. apply andb_prop in H as [Hc Hp].
  pose proof (mismatch_hasPrefixFold m _ x Hc) as Hno.
  rewrite Str.app_cons in *. cbn [indexFold]. rewrite Hno. now apply IH.
Qed.

Lemma eqFold_refl (a : ascii) : eqFold a a = true.
Proof. unfold eqFold. apply Ascii.eqb_refl. Qed.

Lemma hasPrefixFold_app (m x : string) : hasPrefixFold m (m +:+ x) = true.
Proof.
  induction m as [|a m IH]; [reflexivity|].
  rewrite Str.app_cons. cbn [hasPrefixFold]. now rewrite eqFold_refl.
Qed.

Lemma skip_app (m x : string) : skip (String.length m) (m +:+ x) = x.
Proof. induction m as [|a m IH]; [now destruct x | exact IH]. Qed.

Lemma indexFold_here (m x : string) : indexFold m (m +:+ x) = Some x.
Proof.
  destruct m as [|a m]; [now destruct x|].
  rewrite Str.app_cons. cbn [indexFold]. rewrite <- Str.app_cons.
  now rewrite hasPrefixFold_app, skip_app.
Qed.

(** Text in which no begin marker starts is copied. *)
Lemma ReplaceAll_clean (p x : string) :
  clean beginMarker p = true -> ReplaceAll (p +:+ x) = p +:+ ReplaceAll x.
Proof.
  induction p as [|c p IH]; [reflexivity|].
  cbn [clean]. intros H. apply andb_prop in H as [Hc Hp].
  pose proof (mismatch_hasPrefixFold _ _ x Hc) as Hno.
  rewrite !Str.app_cons in *. rewrite ReplaceAll_cons.
  unfold matchBlock. rewrite Hno. now rewrite (IH Hp).
Qed.

(** The begin marker, one character at least, and text without end marker
    up to the first end marker: all of it is dropped. *)
Lemma ReplaceAll_match (c : ascii) (p x : string) :
  clean endMarker p = true ->
  ReplaceAll (beginMarker +:+ String c p +:+ endMarker +:+ x) = ReplaceAll x.
Proof.
  intros Hp.
  assert (E : matchBlock (beginMarker +:+ String c p +:+ endMarker +:+ x)
              = Some x).
  { unfold matchBlock. rewrite hasPrefixFold_app, skip_app.
    rewrite Str.app_cons.
    now rewrite (indexFold_clean _ _ _ Hp), indexFold_here. }
  change (beginMarker +:+ String c p +:+ endMarker +:+ x)
    with (String "/" ("/raw:codegen:begin" +:+ String c p +:+ endMarker +:+ x))
    in *.
  now rewrite ReplaceAll_cons, E.
Qed.

(** ** Text without a slash *)

Lemma noSlash_app (a b : string) : noSlash (a +:+ b) = noSlash a && noSlash b.
Proof.
  induction a as [|c a IH]; [reflexivity|].
  rewrite Str.app_cons. cbn [noSlash]. rewrite IH. apply andb_assoc.
Qed.

Lemma eqFold_slash (c : ascii) : eqFold "/" c = true -> c = "/"%char.
Proof.
  destruct c as [[] [] [] [] [] [] [] []]; vm_compute; intros H;
    first [reflexivity | discriminate H].
Qed.

(** No marker starts inside text without a slash. *)
Lemma noSlash_clean (m p : string) :
  noSlash p = true -> clean (String "/" m) p = true.
Proof.
  induction p as [|c p IH]; [reflexivity|].
  cbn [noSlash clean mismatch]. intros H. apply andb_prop in H as [Hc Hp].
  rewrite (IH Hp), andb_true_r.
  destruct (eqFold "/" c) eqn:E; [|reflexivity].
  apply eqFold_slash in E. subst c. discriminate Hc.
Qed.

Lemma string_of_rune_noSlash (c : ascii) :
  negb (Ascii.eqb c "/") = true ->
  noSlash (string_of_rune (unicode.ToUpper (nat_of_ascii c))) = true.
Proof.
  destruct c as [[] [] [] [] [] [] [] []]; vm_compute; intros H;
    first [reflexivity | discriminate H].
Qed.

Lemma tocamelcase_noSlash (s : string) :
  noSlash s = true -> noSlash (tocamelcase s) = true.
Proof.
  destruct s as [|c s]; [reflexivity|].
  cbn [noSlash tocamelcase]. intros H. apply andb_prop in H as [Hc Hs].
  now rewrite noSlash_app, string_of_rune_noSlash, Hs.
Qed.

(** ** Trimming *)

Lemma TrimRight_allCut (ws : string) : allCut ws = true -> TrimRight ws = "".
Proof.
  induction ws as [|c ws IH]; [reflexivity|].
  cbn [allCut TrimRight]. intros H. apply andb_prop in H as [Hc Hws].
  now rewrite (IH Hws), Hc.
Qed.

Lemma TrimRight_app_cut (s ws : string) :
  allCut ws = true -> TrimRight (s +:+ ws) = TrimRight s.
Proof.
  intros H. induction s as [|c s IH]; [now apply TrimRight_allCut|].
  rewrite Str.app_cons. cbn [TrimRight]. now rewrite IH.
Qed.

Lemma TrimRight_idem (s : string) : TrimRight (TrimRight s) = TrimRight s.
Proof.
  induction s as [|c s IH]; [reflexivity|].
  cbn [TrimRight]. destruct (TrimRight s) as [|d t] eqn:E.
  - destruct (inCutset c) eqn:Ec; [reflexivity|].
    cbn [TrimRight]. now rewrite Ec.
  - cbn [TrimRight] in *. now rewrite IH.
Qed.

(** ** Text that does not contain the begin marker *)

Lemma mismatch_before_newline (m q : string) :
  oneLine m = true -> hasPrefixFold m q = false ->
  mismatch m (q +:+ nl) = true.
Proof.
  revert q. induction m as [|a m IH]; intros q Hm Hq.
  - now destruct q.
  - cbn [oneLine] in Hm. apply andb_prop in Hm as [Ha Hm].
    destruct q as [|c q].
    + unfold nl. rewrite Str.app_nil_l. cbn [mismatch].
      destruct (eqFold a (ascii_of_nat 10)); [discriminate Ha | reflexivity].
    + rewrite Str.app_cons. cbn [mismatch hasPrefixFold] in *.
      destruct (eqFold a c); [|reflexivity]. now apply IH.
Qed.

Lemma clean_before_newline (m b : string) :
  oneLine m = true -> containsFold m b = false -> clean m (b +:+ nl) = true.
Proof.
  intros Hm. induction b as [|c b IH]; intros Hb.
  - cbn [containsFold] in Hb. apply orb_false_elim in Hb as [Hb _].
    rewrite Str.app_nil_l. unfold nl at 1. cbn [clean].
    change (String (ascii_of_nat 10) "") with ("" +:+ nl).
    now rewrite (mismatch_before_newline m "" Hm Hb).
  - cbn [containsFold] in Hb. apply orb_false_elim in Hb as [Hc Hb].
    rewrite Str.app_cons. cbn [clean]. rewrite <- Str.app_cons.
    now rewrite (mismatch_before_newline m _ Hm Hc), (IH Hb).
Qed.

(** ** The emitted text has no slash *)

Lemma exportedTypeOf_noSlash (t typ : string) :
  exportedTypeOf t = Some typ -> noSlash typ = true.
Proof.
  unfold exportedTypeOf. split_switch t; intros [= <-]; reflexivity.
Qed.

Ltac noslash :=
  rewrite ?noSlash_app;
  repeat (apply andb_true_intro; split);
  first [ reflexivity | assumption | now apply tocamelcase_noSlash | idtac ].

Ltac switch_eq t :=
  repeat match goal with
    | E : String.eqb t ?x = true |- _ => apply String.eqb_eq in E; subst t
    end.

Lemma writeExportedType_names_noSlash typ names :
  noSlash typ = true -> forallb noSlash names = true ->
  noSlash (snd (writeExportedType_names typ names "")) = true.
Proof.
  intros Ht. induction names as [|n ns IH]; [reflexivity|].
  cbn [forallb writeExportedType_names]. intros H.
  apply andb_prop in H as [Hn Hns].
  rewrite Fprint_bind_out by apply writeExportedType_names_appending.
  cbn [snd]. noslash. now apply IH.
Qed.

Lemma writeExportedType_noSlash name s :
  noSlash name = true -> fieldNamesOK s = true ->
  noSlash (snd (writeExportedType name s "")) = true.
Proof.
  intros Hname Hs. unfold writeExportedType.
  rewrite Fprint_bind_out
    by (appending; apply writeExportedType_fields_appending).
  cbn [snd]. rewrite snd_bind;
    [| apply writeExportedType_fields_appending | intros; appending].
  noslash.
  - clear Hname. induction s as [|f rest IH]; [reflexivity|].
    cbn [fieldNamesOK forallb] in Hs. apply andb_prop in Hs as [Hf Hrest].
    cbn [writeExportedType_fields].
    destruct (exportedTypeOf _) as [typ|] eqn:E; [|reflexivity].
    rewrite snd_bind;
      [| apply writeExportedType_names_appending
       | intros; apply writeExportedType_fields_appending].
    noslash.
    + apply writeExportedType_names_noSlash; [|assumption].
      eapply exportedTypeOf_noSlash, E.
    + now apply IH.
  - destruct (fst _); [reflexivity|].
    rewrite Fprint_bind_out by appending. reflexivity.
Qed.

Lemma writeEncodeFunc_names_noSlash ftyp typ names :
  forallb noSlash names = true ->
  noSlash (snd (writeEncodeFunc_names ftyp typ names "")) = true.
Proof.
  revert typ. induction names as [|n ns IH]; intros typ H; [reflexivity|].
  cbn [forallb] in H. apply andb_prop in H as [Hn Hns].
  cbn [writeEncodeFunc_names].
  split_switch typ; switch_eq typ;
    try (rewrite Fprint_bind_out by apply writeEncodeFunc_names_appending;
         cbn [snd]; noslash; now apply IH).
Qed.

Lemma writeEncodeFunc_noSlash unexp exp s :
  noSlash unexp = true -> noSlash exp = true -> fieldNamesOK s = true ->
  noSlash (snd (writeEncodeFunc unexp exp s "")) = true.
Proof.
  intros Hu He Hs. unfold writeEncodeFunc.
  repeat (rewrite Fprint_bind_out
            by (appending; apply writeEncodeFunc_fields_appending);
          cbn [snd]).
  rewrite snd_bind;
    [| apply writeEncodeFunc_fields_appending | intros; appending].
  noslash.
  - clear Hu He. induction s as [|f rest IH]; [reflexivity|].
    cbn [fieldNamesOK forallb] in Hs. apply andb_prop in Hs as [Hf Hrest].
    cbn [writeEncodeFunc_fields].
    rewrite snd_bind;
      [| apply writeEncodeFunc_names_appending
       | intros; appending; apply writeEncodeFunc_fields_appending].
    noslash.
    + now apply writeEncodeFunc_names_noSlash.
    + destruct (fst _); [reflexivity | now apply IH].
  - destruct (fst _); [reflexivity|].
    repeat (rewrite Fprint_bind_out by appending; cbn [snd]).
    reflexivity.
Qed.

Lemma writeDecodeFunc_names_noSlash names :
  forallb noSlash names = true ->
  noSlash (snd (writeDecodeFunc_names names "")) = true.
Proof.
  induction names as [|n ns IH]; [reflexivity|].
  cbn [forallb writeDecodeFunc_names]. intros H.
  apply andb_prop in H as [Hn Hns].
  rewrite Fprint_bind_out by apply writeDecodeFunc_names_appending.
  cbn [snd]. noslash. now apply IH.
Qed.

Lemma writeDecodeFunc_noSlash unexp exp s :
  noSlash unexp = true -> noSlash exp = true -> fieldNamesOK s = true ->
  noSlash (snd (writeDecodeFunc unexp exp s "")) = true.
Proof.
  intros Hu He Hs. unfold writeDecodeFunc.
  repeat (rewrite Fprint_bind_out
            by (appending; apply writeDecodeFunc_fields_appending);
          cbn [snd]).
  rewrite snd_bind;
    [| apply writeDecodeFunc_fields_appending | intros; appending].
  noslash.
  clear Hu He. induction s as [|f rest IH]; [reflexivity|].
  cbn [fieldNamesOK forallb] in Hs. apply andb_prop in Hs as [Hf Hrest].
  cbn [writeDecodeFunc_fields].
  rewrite snd_bind;
    [| apply writeDecodeFunc_names_appending
     | intros; apply writeDecodeFunc_fields_appending].
  noslash; [now apply writeDecodeFunc_names_noSlash | now apply IH].
Qed.

Lemma writeAccessorFuncs_names_noSlash name ftyp names :
  noSlash name = true -> forallb noSlash names = true ->
  noSlash (snd (writeAccessorFuncs_names name ftyp names "")) = true.
Proof.
  intros Hname. induction names as [|n ns IH]; intros H; [reflexivity|].
  cbn [forallb] in H. apply andb_prop in H as [Hn Hns].
  specialize (IH Hns). cbn [writeAccessorFuncs_names].
  split_switch ftyp; switch_eq ftyp;
    try (repeat (rewrite Fprint_bind_out
                   by (appending; apply writeAccessorFuncs_names_appending);
                 cbn [snd]);
         noslash).
Qed.

Lemma writeAccessorFuncs_noSlash name s :
  noSlash name = true -> fieldNamesOK s = true ->
  noSlash (snd (writeAccessorFuncs name s "")) = true.
Proof.
  intros Hname. induction s as [|f rest IH]; intros Hs; [reflexivity|].
  cbn [fieldNamesOK forallb] in Hs. apply andb_prop in Hs as [Hf Hrest].
  cbn [writeAccessorFuncs].
  rewrite snd_bind;
    [| apply writeAccessorFuncs_names_appending
     | intros; appending; apply writeAccessorFuncs_appending].
  noslash.
  - now apply writeAccessorFuncs_names_noSlash.
  - destruct (fst _); [reflexivity | now apply IH].
Qed.

Lemma blockBody_noSlash (node : TypeSpec) :
  identsOK node = true -> noSlash (blockBody node) = true.
Proof.
  unfold identsOK, blockBody. intros H. apply andb_prop in H as [Hn Hs].
  destruct (Type_ node) as [| |s|]; try reflexivity.
  unfold bodyOf. pose proof (tocamelcase_noSlash _ Hn) as Hexp.
  noslash.
  - now apply writeExportedType_noSlash.
  - now apply writeEncodeFunc_noSlash.
  - now apply writeDecodeFunc_noSlash.
  - now apply writeAccessorFuncs_noSlash.
Qed.

(** ** Stripping what the generator wrote *)

Lemma blockBegin_eq :
  blockBegin = beginMarker +:+ String (ascii_of_nat 10) headerRest.
Proof. reflexivity. Qed.

Lemma blockEnd_eq : blockEnd = endMarker +:+ nl +:+ nl.
Proof. reflexivity. Qed.

Lemma allCut_app (a b : string) : allCut (a +:+ b) = allCut a && allCut b.
Proof.
  induction a as [|c a IH]; [reflexivity|].
  rewrite Str.app_cons. cbn [allCut]. rewrite IH. apply andb_assoc.
Qed.

Lemma allCut_gaps (f : File) : allCut (gaps f) = true.
Proof.
  induction f as [|node rest IH]; [reflexivity|].
  cbn [gaps]. rewrite allCut_app, IH. now destruct (eligible node).
Qed.

Lemma block_split (node : TypeSpec) (x : string) :
  block node +:+ x
  = beginMarker +:+ String (ascii_of_nat 10) (headerRest +:+ blockBody node)
    +:+ endMarker +:+ (nl +:+ nl +:+ x).
Proof.
  unfold block. rewrite blockBegin_eq, blockEnd_eq.
  now rewrite !Str.app_assoc, !Str.app_cons, ?Str.app_assoc.
Qed.

Lemma ReplaceAll_block (node : TypeSpec) (x : string) :
  identsOK node = true ->
  ReplaceAll (block node +:+ x) = nl +:+ nl +:+ ReplaceAll x.
Proof.
  intros Hok. rewrite block_split, ReplaceAll_match.
  - rewrite <- Str.app_assoc. rewrite (ReplaceAll_clean (nl +:+ nl) x).
    + now rewrite Str.app_assoc.
    + reflexivity.
  - apply clean_app; [reflexivity|].
    apply (noSlash_clean "/raw:codegen:end"). now apply blockBody_noSlash.
Qed.

Lemma ReplaceAll_blocks (f : File) :
  forallb identsOK f = true -> ReplaceAll (blocks f) = gaps f.
Proof.
  induction f as [|node rest IH]; intros H; [reflexivity|].
  cbn [forallb] in H. apply andb_prop in H as [Hn Hrest].
  cbn [blocks gaps]. destruct (eligible node).
  - rewrite ReplaceAll_block by assumption. rewrite (IH Hrest).
    now rewrite Str.app_assoc.
  - rewrite !Str.app_nil_l. now apply IH.
Qed.

(** Hand-written text without a begin marker, followed by what the
    generator appends, is stripped and trimmed back to the hand-written
    text. *)
Lemma strip_generated (b : string) (f : File) :
  containsFold beginMarker b = false ->
  forallb identsOK f = true ->
  TrimRight (ReplaceAll (b +:+ nl +:+ nl +:+ blocks f)) = TrimRight b.
Proof.
  intros Hb Hf.
  rewrite <- Str.app_assoc.
  rewrite (ReplaceAll_clean (b +:+ nl));
    [| now apply clean_before_newline].
  rewrite (ReplaceAll_clean nl); [| reflexivity].
  rewrite (ReplaceAll_blocks f Hf).
  rewrite Str.app_assoc. apply TrimRight_app_cut.
  rewrite !allCut_app, allCut_gaps. reflexivity.
Qed.

(** ** The driver *)

Lemma process_generate ParseFile (path : string) (st : world) :
  process ParseFile path st
  = match ioutil.ReadFile path st with
    | Err e => (Some e, st)
    | Ok src =>
        match generate ParseFile path src with
        | Err e => (Some e, st)
        | Ok out =>
            (None, Println ("OK " +:+ path) (snd (ioutil.WriteFile path out st)))
        end
    end.
Proof.
  unfold process, generate. destruct (ioutil.ReadFile path st) as [src|e];
    [|reflexivity].
  destruct (ParseFile path _) as [f|e]; [|reflexivity].
  cbn [w err]. rewrite Str.app_nil_l.
  destruct (err (Walk _ f)); reflexivity.
Qed.

(** An error of [process] leaves the files and the log as they were. *)
Lemma process_error_keeps_world ParseFile (path : string) (st : world) (e : error) :
  fst (process ParseFile path st) = Some e -> snd (process ParseFile path st) = st.
Proof.
  rewrite process_generate.
  destruct (ioutil.ReadFile path st) as [src|e1]; [|reflexivity].
  destruct (generate ParseFile path src) as [out|e1]; [discriminate | reflexivity].
Qed.

Lemma generate_ok ParseFile (path src out : string) :
  generate ParseFile path src = Ok out ->
  exists f, ParseFile path (TrimRight (ReplaceAll src)) = Ok f
    /\ err (Walk (mkGenerator (TrimRight (ReplaceAll src) +:+ nl +:+ nl) None) f)
       = None
    /\ out = TrimRight (ReplaceAll src) +:+ nl +:+ nl +:+ blocks f.
Proof.
  unfold generate. destruct (ParseFile path _) as [f|e]; [|discriminate].
  destruct (err (Walk _ f)) eqn:E; [discriminate|].
  intros [= <-]. exists f. split; [reflexivity|]. split; [assumption|].
  rewrite Walk_ok by (assumption || reflexivity).
  cbn [w]. now rewrite !Str.app_assoc.
Qed.

(** The output of a run is a fixed point of the generation, when the
    hand-written text holds no begin marker. *)
Lemma generate_fixpoint ParseFile (path src out : string) :
  (forall p s f, ParseFile p s = Ok f -> forallb identsOK f = true) ->
  containsFold beginMarker (TrimRight (ReplaceAll src)) = false ->
  generate ParseFile path src = Ok out ->
  generate ParseFile path out = Ok out.
Proof.
  intros Hids Hclean Hgen.
  destruct (generate_ok _ _ _ _ Hgen) as (f & Hf & Herr & Hout).
  assert (Hb : TrimRight (ReplaceAll out) = TrimRight (ReplaceAll src)).
  { rewrite Hout, strip_generated; [apply TrimRight_idem | assumption |].
    eapply Hids, Hf. }
  unfold generate in *. rewrite Hb. exact Hgen.
Qed.

(** ** Counting markers *)

Lemma countFold_clean (a : ascii) (m p x : string) :
  clean (String a m) p = true ->
  countFold (String a m) (p +:+ x) = countFold (String a m) x.
Proof.
  induction p as [|c p IH]; [reflexivity|].
  cbn [clean]. intros H. apply andb_prop in H as [Hc Hp].
  pose proof (mismatch_hasPrefixFold _ _ x Hc) as Hno.
  rewrite Str.app_cons in *. cbn [countFold]. rewrite Hno. now rewrite (IH Hp).
Qed.

Lemma countFold_here (a : ascii) (m p x : string) :
  clean (String a m) (m +:+ p) = true ->
  countFold (String a m) (String a m +:+ p +:+ x)
  = S (countFold (String a m) x).
Proof.
  intros H. rewrite Str.app_cons. cbn [countFold].
  rewrite <- Str.app_cons, hasPrefixFold_app.
  rewrite <- Str.app_assoc. now rewrite (countFold_clean _ _ _ x H).
Qed.

Lemma countFold_blocks (f : File) :
  forallb identsOK f = true ->
  countFold beginMarker (blocks f) = eligibleCount f
  /\ countFold endMarker (blocks f) = eligibleCount f.
Proof.
  unfold eligibleCount.
  induction f as [|node rest IH]; intros H; [split; reflexivity|].
  cbn [forallb] in H. apply andb_prop in H as [Hn Hrest].
  destruct (IH Hrest) as [IHb IHe]. cbn [blocks List.filter].
  destruct (eligible node); [|rewrite Str.app_nil_l; now split].
  pose proof (blockBody_noSlash node Hn) as Hbody.
  cbn [List.length]. rewrite <- IHb at 1. rewrite <- IHe.
  unfold block. rewrite blockBegin_eq, blockEnd_eq. split.
  - rewrite !Str.app_assoc.
    change beginMarker with (String "/" "/raw:codegen:begin") at 1 2.
    rewrite <- (Str.app_assoc (String _ headerRest)).
    rewrite <- (Str.app_assoc (String _ headerRest +:+ blockBody node)).
    rewrite <- (Str.app_assoc _ nl), <- (Str.app_assoc _ nl).
    apply (countFold_here "/" "/raw:codegen:begin").
    rewrite <- !Str.app_assoc.
    repeat apply clean_app; try reflexivity.
    now apply (noSlash_clean "/raw:codegen:begin").
  - rewrite !Str.app_assoc.
    rewrite <- (Str.app_assoc beginMarker).
    rewrite <- (Str.app_assoc (beginMarker +:+ _)).
    change endMarker with (String "/" "/raw:codegen:end") at 1.
    rewrite countFold_clean.
    + rewrite <- (Str.app_assoc nl).
      change endMarker with (String "/" "/raw:codegen:end").
      apply (countFold_here "/" "/raw:codegen:end"). reflexivity.
    + repeat apply clean_app; try reflexivity.
      now apply (noSlash_clean "/raw:codegen:end").
Qed.

(** ** Names in the sample files *)

Lemma sampleParse_idents (p s : string) (f : File) :
  sampleParse p s = Ok f -> forallb identsOK f = true.
Proof.
  unfold sampleParse.
  repeat (destruct (String.eqb s _); [intros [= <-]; reflexivity|]).
  discriminate.
Qed.

(** ** Running the driver twice *)

Lemma process_missing ParseFile (path : string) (st : world) :
  files st !! path = None ->
  process ParseFile path st = (Some (ErrNotExist path), st).
Proof.
  intros H. rewrite process_generate. unfold ioutil.ReadFile. now rewrite H.
Qed.

Lemma process_failed ParseFile (path : string) (st : world) (f0 : file) (e : error) :
  files st !! path = Some f0 ->
  generate ParseFile path (content f0) = Err e ->
  process ParseFile path st = (Some e, st).
Proof.
  intros H Hg. rewrite process_generate. unfold ioutil.ReadFile.
  now rewrite H, Hg.
Qed.

(** The file is writable: it is replaced by the generated text. *)
Lemma process_written ParseFile (path out : string) (st : world) (f0 : file) :
  files st !! path = Some f0 ->
  writable f0 = true ->
  generate ParseFile path (content f0) = Ok out ->
  process ParseFile path st
  = (None, Println ("OK " +:+ path)
             (mkWorld (<[path := mkFile out true]> (files st)) (stdlog st))).
Proof.
  intros H Hw Hg. rewrite process_generate. unfold ioutil.ReadFile.
  rewrite H, Hg. unfold ioutil.WriteFile. now rewrite H, Hw.
Qed.

(** The file is not writable: [ioutil.WriteFile] fails, and [process]
    goes on as if it had not. *)
Lemma process_not_written ParseFile (path out : string) (st : world) (f0 : file) :
  files st !! path = Some f0 ->
  writable f0 = false ->
  generate ParseFile path (content f0) = Ok out ->
  process ParseFile path st = (None, Println ("OK " +:+ path) st).
Proof.
  intros H Hw Hg. rewrite process_generate. unfold ioutil.ReadFile.
  rewrite H, Hg. unfold ioutil.WriteFile. now rewrite H, Hw.
Qed.

(** C1, amended.  When the parser yields names without a slash, as Go
    identifiers are, and the hand-written text that is left after
    stripping and trimming holds no begin marker in any letter case, a
    second run of [process] leaves the files exactly as the first run left
    them and returns what the first run returned. *)
Theorem regeneration_idempotent
    (ParseFile : string -> string -> result File) (path : string) (st : world) :
  (forall p s f, ParseFile p s = Ok f -> forallb identsOK f = true) ->
  (forall src, ioutil.ReadFile path st = Ok src ->
     containsFold beginMarker (TrimRight (ReplaceAll src)) = false) ->
  files (snd (process ParseFile path (snd (process ParseFile path st))))
  = files (snd (process ParseFile path st))
  /\ fst (process ParseFile path (snd (process ParseFile path st)))
     = fst (process ParseFile path st).
Proof.
  intros Hids Hclean. unfold ioutil.ReadFile in Hclean.
  destruct (files st !! path) as [f0|] eqn:E0.
  2:{ rewrite (process_missing _ _ _ E0). cbn [snd].
      rewrite (process_missing _ _ _ E0). now split. }
  specialize (Hclean _ eq_refl).
  destruct (generate ParseFile path (content f0)) as [out|e] eqn:EG.
  2:{ rewrite (process_failed _ _ _ _ _ E0 EG). cbn [snd].
      rewrite (process_failed _ _ _ _ _ E0 EG). now split. }
  destruct (writable f0) eqn:Ew.
  - rewrite (process_written _ _ _ _ _ E0 Ew EG). cbn [snd].
    rewrite (process_written _ _ out _ (mkFile out true)); cbn [files Println].
    + cbn [fst snd files Println]. split; [apply insert_insert_eq | reflexivity].
    + apply lookup_insert_eq.
    + reflexivity.
    + cbn [content]. exact (generate_fixpoint _ _ _ _ Hids Hclean EG).
  - rewrite (process_not_written _ _ _ _ _ E0 Ew EG). cbn [snd].
    rewrite (process_not_written _ _ out _ f0); cbn [files Println];
      try assumption.
    now split.
Qed.

Lemma regeneration_idempotent_witness :
  files (snd (process sampleParse "geo.go"
           (snd (process sampleParse "geo.go" (geoWorld geoSrc true)))))
  = files (snd (process sampleParse "geo.go" (geoWorld geoSrc true)))
  /\ fst (process sampleParse "geo.go"
           (snd (process sampleParse "geo.go" (geoWorld geoSrc true))))
     = fst (process sampleParse "geo.go" (geoWorld geoSrc true)).
Proof.
  apply (regeneration_idempotent sampleParse "geo.go" (geoWorld geoSrc true)).
  - exact sampleParse_idents.
  - intros src H. vm_compute in H. injection H as <-. vm_compute. reflexivity.
Defined.

(** C1 as stated fails on [noteSrc], whose comment mentions the begin
    marker: the first run appends the block of [point]; the second run
    takes the comment's marker for the start of a block, drops everything
    from there to the generated end marker and with it the declaration of
    [point], and writes a different file. *)
Lemma second_run_rewrites_file :
  fst (process sampleParse "geo.go" (geoWorld noteSrc true)) = None
  /\ files (snd (process sampleParse "geo.go" (geoWorld noteSrc true)))
       !! "geo.go"
     = Some (mkFile (noteSrc +:+ nl +:+ nl +:+ block point) true)
  /\ fst (process sampleParse "geo.go"
            (snd (process sampleParse "geo.go" (geoWorld noteSrc true))))
     = None
  /\ files (snd (process sampleParse "geo.go"
              (snd (process sampleParse "geo.go" (geoWorld noteSrc true)))))
       !! "geo.go"
     = Some (mkFile (noteCut +:+ nl +:+ nl) true)
  /\ noteSrc +:+ nl +:+ nl +:+ block point <> noteCut +:+ nl +:+ nl.
Proof.
  repeat split; try (vm_compute; reflexivity).
  vm_compute. discriminate.
Qed.

(** ** One block per eligible declaration *)

(** C2, amended.  The text [process] writes is the stripped and trimmed
    original, two newlines, and then one sentinel-delimited block per
    eligible declaration in the order of the walk: the generated part
    holds as many begin markers and as many end markers as the file has
    eligible declarations.  When the file read is hand-written text free
    of begin markers followed by the blocks of an earlier run, stripping
    gives back that hand-written text, so nothing of the old blocks
    stays. *)
Theorem one_block_per_eligible_declaration
    (ParseFile : string -> string -> result File) (path src out : string) :
  (forall p s f, ParseFile p s = Ok f -> forallb identsOK f = true) ->
  generate ParseFile path src = Ok out ->
  (exists f,
      ParseFile path (TrimRight (ReplaceAll src)) = Ok f
      /\ out = TrimRight (ReplaceAll src) +:+ nl +:+ nl +:+ blocks f
      /\ countFold beginMarker (blocks f) = eligibleCount f
      /\ countFold endMarker (blocks f) = eligibleCount f)
  /\ (forall b0 f0,
        src = b0 +:+ nl +:+ nl +:+ blocks f0 ->
        containsFold beginMarker b0 = false ->
        forallb identsOK f0 = true ->
        TrimRight (ReplaceAll src) = TrimRight b0).
Proof.
  intros Hids Hgen. split.
  - destruct (generate_ok _ _ _ _ Hgen) as (f & Hf & _ & Hout).
    exists f. split; [assumption|]. split; [assumption|].
    apply countFold_blocks. eapply Hids, Hf.
  - intros b0 f0 -> Hb0 Hf0. now apply strip_generated.
Qed.

Lemma one_block_per_eligible_declaration_witness :
  (exists f,
      sampleParse "geo.go" (TrimRight (ReplaceAll geoSrc)) = Ok f
      /\ geoSrc +:+ nl +:+ nl +:+ blocks [point; size]
         = TrimRight (ReplaceAll geoSrc) +:+ nl +:+ nl +:+ blocks f
      /\ countFold beginMarker (blocks f) = eligibleCount f
      /\ countFold endMarker (blocks f) = eligibleCount f)
  /\ (forall b0 f0,
        geoSrc = b0 +:+ nl +:+ nl +:+ blocks f0 ->
        containsFold beginMarker b0 = false ->
        forallb identsOK f0 = true ->
        TrimRight (ReplaceAll geoSrc) = TrimRight b0).
Proof.
  apply (one_block_per_eligible_declaration sampleParse "geo.go" geoSrc
           (geoSrc +:+ nl +:+ nl +:+ blocks [point; size])).
  - exact sampleParse_idents.
  - vm_compute. reflexivity.
Defined.

(** C2 as stated fails on [geoSrc], which declares two raw structs: the
    text written holds two begin markers and two end markers, one pair for
    [point] and one for [size]. *)
Lemma two_declarations_two_blocks :
  generate sampleParse "geo.go" geoSrc
  = Ok (geoSrc +:+ nl +:+ nl +:+ block point +:+ block size)
  /\ countFold beginMarker
       (geoSrc +:+ nl +:+ nl +:+ block point +:+ block size) = 2
  /\ countFold endMarker
       (geoSrc +:+ nl +:+ nl +:+ block point +:+ block size) = 2.
Proof. repeat split; vm_compute; reflexivity. Qed.

(** ** A file without eligible declarations *)

(** C8, amended.  For a writable file whose declarations are all
    ineligible, [process] writes the stripped and trimmed original
    followed by exactly two newlines, and no generated block. *)
Theorem no_eligible_declaration_output
    (ParseFile : string -> string -> result File) (path : string) (st : world)
    (f0 : file) (f : File) :
  files st !! path = Some f0 ->
  writable f0 = true ->
  ParseFile path (TrimRight (ReplaceAll (content f0))) = Ok f ->
  forallb (fun node => negb (eligible node)) f = true ->
  process ParseFile path st
  = (None,
     Println ("OK " +:+ path)
       (mkWorld
          (<[path := mkFile (TrimRight (ReplaceAll (content f0)) +:+ nl +:+ nl)
                       true]> (files st))
          (stdlog st))).
Proof.
  intros H0 Hw Hf Hnone. apply (process_written _ _ _ _ f0); try assumption.
  unfold generate. rewrite Hf, (Walk_ineligible f _ Hnone). reflexivity.
Qed.

Lemma no_eligible_declaration_output_witness :
  process sampleParse "geo.go" (geoWorld namesSrc true)
  = (None,
     Println ("OK " +:+ "geo.go")
       (mkWorld
          (<["geo.go" := mkFile (TrimRight (ReplaceAll namesSrc) +:+ nl +:+ nl)
                           true]> (files (geoWorld namesSrc true)))
          (stdlog (geoWorld namesSrc true)))).
Proof.
  apply (no_eligible_declaration_output sampleParse "geo.go"
           (geoWorld namesSrc true) (mkFile namesSrc true) [names]).
  - reflexivity.
  - reflexivity.
  - vm_compute. reflexivity.
  - reflexivity.
Defined.

(** C8 as stated fails on [namesSrc], which has no eligible declaration
    and nothing to strip or trim: the file written is not [namesSrc] but
    [namesSrc] followed by two newlines. *)
Lemma separator_written_without_block :
  TrimRight (ReplaceAll namesSrc) = namesSrc
  /\ files (snd (process sampleParse "geo.go" (geoWorld namesSrc true)))
       !! "geo.go"
     = Some (mkFile (namesSrc +:+ nl +:+ nl) true)
  /\ namesSrc +:+ nl +:+ nl <> namesSrc.
Proof.
  repeat split; try (vm_compute; reflexivity).
  vm_compute. discriminate.
Qed.

(** ** A write that fails *)

(** C5.  When the file cannot be written, [ioutil.WriteFile] returns its
    error, and [process] drops it: it logs the OK line and returns nil,
    with the file as it was. *)
Theorem write_error_dropped
    (ParseFile : string -> string -> result File) (path out : string)
    (st : world) (f0 : file) :
  files st !! path = Some f0 ->
  writable f0 = false ->
  generate ParseFile path (content f0) = Ok out ->
  ioutil.WriteFile path out st = (Some (ErrPermission path), st)
  /\ process ParseFile path st = (None, Println ("OK " +:+ path) st)
  /\ stdlog (snd (process ParseFile path st)) = stdlog st ++ ["OK " +:+ path].
Proof.
  intros H0 Hw Hg.
  rewrite (process_not_written _ _ _ _ _ H0 Hw Hg).
  split; [|split; reflexivity].
  unfold ioutil.WriteFile. now rewrite H0, Hw.
Qed.

Lemma write_error_dropped_witness :
  ioutil.WriteFile "geo.go" (pointSrc +:+ nl +:+ nl +:+ block point)
    (geoWorld pointSrc false)
  = (Some (ErrPermission "geo.go"), geoWorld pointSrc false)
  /\ process sampleParse "geo.go" (geoWorld pointSrc false)
     = (None, Println ("OK " +:+ "geo.go") (geoWorld pointSrc false))
  /\ stdlog (snd (process sampleParse "geo.go" (geoWorld pointSrc false)))
     = stdlog (geoWorld pointSrc false) ++ ["OK " +:+ "geo.go"].
Proof.
  apply (write_error_dropped sampleParse "geo.go"
           (pointSrc +:+ nl +:+ nl +:+ block point)
           (geoWorld pointSrc false) (mkFile pointSrc false)).
  - reflexivity.
  - reflexivity.
  - vm_compute. reflexivity.
Defined.

(** ** Raw structs that are exported *)

(** The first byte of the name is an upper-case letter, read as a code
    point of its own: [visitTypeSpec] refuses the declaration and writes
    nothing. *)
Lemma visitTypeSpec_exported (node : TypeSpec) (c : ascii) (rest : string) :
  eligible node = true ->
  Name node = String c rest ->
  unicode.IsUpper (nat_of_ascii c) = true ->
  forall buf, visitTypeSpec node buf = (Some (ErrExportedRaw (Name node)), buf).
Proof.
  unfold eligible, visitTypeSpec. intros He Hn Hc buf.
  destruct (Type_ node) as [| |s|]; try discriminate.
  now rewrite He, Hn, Hc.
Qed.

(** [process] returns that error, whenever the walk gets to the
    declaration, and leaves the files and the log as they were. *)
Lemma process_exported ParseFile (path : string) (st : world) (f0 : file)
    (pre post : File) (node : TypeSpec) (c : ascii) (rest : string) :
  files st !! path = Some f0 ->
  ParseFile path (TrimRight (ReplaceAll (content f0))) = Ok (pre ++ node :: post) ->
  err (Walk (mkGenerator (TrimRight (ReplaceAll (content f0)) +:+ nl +:+ nl) None)
         pre) = None ->
  eligible node = true ->
  Name node = String c rest ->
  unicode.IsUpper (nat_of_ascii c) = true ->
  process ParseFile path st = (Some (ErrExportedRaw (Name node)), st).
Proof.
  intros H0 Hf Hpre He Hn Hc. apply (process_failed _ _ _ f0); [assumption|].
  unfold generate. rewrite Hf. unfold Walk in *. rewrite fold_left_app.
  cbn [fold_left]. fold (Walk (fold_left Visit pre
    (mkGenerator (TrimRight (ReplaceAll (content f0)) +:+ nl +:+ nl) None)) post).
  set (g := fold_left Visit pre _) in *.
  assert (HV : err (Visit g node) = Some (ErrExportedRaw (Name node))).
  { unfold Visit. rewrite Hpre.
    now rewrite (visitTypeSpec_exported node c rest He Hn Hc). }
  fold (Walk (Visit g node) post).
  rewrite (Walk_err post _ _ HV). now rewrite HV.
Qed.

(** C4.  [type Ảnh struct { n int32 }] is raw and its name begins with an
    upper-case letter, yet [visitTypeSpec] looks at the first byte only,
    225, which is a lower-case letter when read as a code point: no error
    is returned, a block is generated and [process] rewrites the file. *)
Theorem exported_name_not_rejected :
  map nat_of_ascii (list_ascii_of_string anhName) = [225; 186; 162; 110; 104]
  /\ eligible anh = true
  /\ unicode.IsUpper 225 = false
  /\ visitTypeSpec anh "" = (None, block anh)
  /\ process anhParse "geo.go" (geoWorld anhSrc true)
     = (None,
        Println "OK geo.go"
          (mkWorld {[ "geo.go" := mkFile (anhSrc +:+ nl +:+ nl +:+ block anh) true ]}
             [])).
Proof. repeat split; vm_compute; reflexivity. Qed.

(** ** Structs without fields *)

Lemma isRawStructType_nil : isRawStructType [] = true.
Proof. reflexivity. Qed.

Lemma bodyOf_nil (unexp : string) : bodyOf unexp [] = emptyBody unexp.
Proof.
  unfold bodyOf, emptyBody.
  cbv [writeExportedType writeExportedType_fields writeEncodeFunc
       writeEncodeFunc_fields writeDecodeFunc writeDecodeFunc_fields
       writeAccessorFuncs bind Fprint ret fst snd].
  now rewrite !Str.app_nil_l, !Str.app_assoc, ?Str.app_nil_r.
Qed.

(** A struct without fields whose name starts with a byte that is not an
    upper-case letter gets a block. *)
Lemma empty_struct_generated (c : ascii) (rest : string) :
  unicode.IsUpper (nat_of_ascii c) = false ->
  visitTypeSpec (mkTypeSpec (String c rest) (StructType [])) ""
  = (None, blockBegin +:+ emptyBody (String c rest) +:+ blockEnd).
Proof.
  intros Hc.
  assert (E : fst (visitTypeSpec (mkTypeSpec (String c rest) (StructType [])) "")
              = None).
  { unfold visitTypeSpec. cbn [Type_ Name isRawStructType negb]. rewrite Hc.
    cbv [writeExportedType writeExportedType_fields writeEncodeFunc
         writeEncodeFunc_fields writeDecodeFunc writeDecodeFunc_fields
         writeAccessorFuncs orReturn bind Fprint ret fst snd]. reflexivity. }
  pose proof (visitTypeSpec_ok _ E) as Hout.
  destruct (visitTypeSpec _ "") as [r out]. cbn [fst snd] in *. subst r.
  rewrite Hout. cbn [eligible Type_ isRawStructType]. unfold block, blockBody.
  cbn [Type_ Name]. now rewrite bodyOf_nil.
Qed.

(** One whose name starts with a byte that is an upper-case letter is
    refused. *)
Lemma empty_struct_exported (c : ascii) (rest : string) :
  unicode.IsUpper (nat_of_ascii c) = true ->
  forall buf,
    visitTypeSpec (mkTypeSpec (String c rest) (StructType [])) buf
    = (Some (ErrExportedRaw (String c rest)), buf).
Proof.
  intros Hc buf.
  now apply (visitTypeSpec_exported (mkTypeSpec (String c rest) (StructType []))
               c rest).
Qed.

(** C9.  A struct without fields is raw.  [type точка struct{}] is not
    exported, its name starting with a lower-case Cyrillic letter, yet the
    first byte of that name, 209, is an upper-case letter when read as a
    code point, and the declaration is refused as exported instead of
    getting a block; [type Ảnh struct{}] is exported and gets a block
    instead of the error. *)
Theorem empty_struct_export_check_on_first_byte :
  isRawStructType [] = true
  /\ map nat_of_ascii (list_ascii_of_string "точка")
     = [209; 130; 208; 190; 209; 135; 208; 186; 208; 176]
  /\ unicode.IsUpper 209 = true
  /\ visitTypeSpec (mkTypeSpec "точка" (StructType [])) ""
     = (Some (ErrExportedRaw "точка"), "")
  /\ visitTypeSpec (mkTypeSpec anhName (StructType [])) ""
     = (None, blockBegin +:+ emptyBody anhName +:+ blockEnd).
Proof. repeat split; vm_compute; reflexivity. Qed.

(** ** The exported type *)

Lemma exportedTypeOf_table (t : string) :
  exportedTypeOf t = lookupType t externalTypes.
Proof.
  unfold exportedTypeOf, externalTypes. cbn [lookupType].
  unfold oneOf. cbn [existsb].
  repeat match goal with
    | |- context [String.eqb t ?x] =>
        destruct (String.eqb t x); cbn [orb]; try reflexivity
    end.
Qed.

Lemma joined_app (a b : list string) : joined (a ++ b) = joined a +:+ joined b.
Proof.
  induction a as [|x a IH]; [reflexivity|].
  cbn [app joined]. fold (a ++ b). now rewrite IH, Str.app_assoc.
Qed.

Lemma writeExportedType_names_out (t typ : string) (names : list string) :
  lookupType t externalTypes = Some typ ->
  snd (writeExportedType_names typ names "")
  = joined (map exportedField (map (fun n => (n, t)) names)).
Proof.
  intros Ht. induction names as [|n ns IH]; [reflexivity|].
  cbn [writeExportedType_names map joined].
  rewrite Fprint_bind_out by apply writeExportedType_names_appending.
  cbn [snd]. rewrite IH. unfold exportedField at 2. cbn [fst snd].
  rewrite Ht. now rewrite !Str.app_assoc.
Qed.

Lemma writeExportedType_fields_out (s : list Field) :
  isRawStructType s = true ->
  writeExportedType_fields s ""
  = (None, joined (map exportedField (declaredNames s))).
Proof.
  intros Hraw. pose proof (writeExportedType_fields_raw s Hraw) as Hnone.
  destruct (writeExportedType_fields s "") as [r out] eqn:E.
  cbn [fst] in Hnone. subst r. f_equal.
  change out with (snd (None : option error, out)). rewrite <- E. clear E.
  rewrite isRawStructType_forallb in Hraw.
  induction s as [|f rest IH]; [reflexivity|].
  cbn [forallb] in Hraw. apply andb_prop in Hraw as [Ht Hrest].
  cbn [writeExportedType_fields declaredNames flat_map].
  rewrite map_app, joined_app.
  destruct (exportedTypeOf (tostr (FieldType f))) as [typ|] eqn:Et.
  - rewrite snd_bind;
      [| apply writeExportedType_names_appending
       | intros; apply writeExportedType_fields_appending].
    rewrite exportedTypeOf_table in Et.
    rewrite (writeExportedType_names_out _ _ _ Et). f_equal. now apply IH.
  - apply exportedTypeOf_raw in Ht. contradiction.
Qed.

Lemma tocamelcase_ascii (c : ascii) (rest : string) :
  (nat_of_ascii c <? 128) = true ->
  tocamelcase (String c rest) = String (asciiUpper c) rest.
Proof.
  destruct c as [[] [] [] [] [] [] [] []]; intros H;
    first [discriminate H | vm_compute; reflexivity].
Qed.

(** C7, amended.  For a raw struct, the exported type declaration has one
    field per declared field name, in the order of the declaration (a
    field declared with several names gives several, an embedded field
    none); each is named by [tocamelcase], which puts a first ASCII letter
    in upper case, and typed by the table of external types.  The struct
    [point] with the [int32] fields [x] and [y] yields the type [Point]
    with the [int] fields [X] and [Y] and the accessors [X()] and [Y()]
    returning [int]. *)
Theorem exported_type_layout (name : string) (s : list Field) :
  isRawStructType s = true ->
  writeExportedType name s ""
  = (None,
     "type " +:+ name +:+ " struct {" +:+ nl
     +:+ joined (map exportedField (declaredNames s))
     +:+ "}" +:+ nl +:+ nl)
  /\ (forall c rest, (nat_of_ascii c <? 128) = true ->
        tocamelcase (String c rest) = String (asciiUpper c) rest)
  /\ writeExportedType (tocamelcase "point")
       [mkField ["x"] (Ident "int32"); mkField ["y"] (Ident "int32")] ""
     = (None,
        "type Point struct {" +:+ nl +:+ tab +:+ "X int" +:+ nl
        +:+ tab +:+ "Y int" +:+ nl +:+ "}" +:+ nl +:+ nl)
  /\ writeAccessorFuncs "point"
       [mkField ["x"] (Ident "int32"); mkField ["y"] (Ident "int32")] ""
     = (None,
        "func (r *point) X() int { return int(r.x) }" +:+ nl +:+ nl
        +:+ "func (r *point) Y() int { return int(r.y) }" +:+ nl +:+ nl).
Proof.
  intros Hraw. split; [|split; [|split]].
  - unfold writeExportedType.
    rewrite Fprint_bind_out
      by (appending; apply writeExportedType_fields_appending).
    rewrite bind_out;
      [| apply writeExportedType_fields_appending | intros; appending].
    rewrite (writeExportedType_fields_out s Hraw). cbn [fst snd].
    rewrite Fprint_bind_out by appending. cbn [fst snd ret].
    now rewrite !Str.app_assoc, ?Str.app_nil_r.
  - exact tocamelcase_ascii.
  - vm_compute. reflexivity.
  - vm_compute. reflexivity.
Qed.

Lemma exported_type_layout_witness :
  writeExportedType "Size"
    [mkField ["w"; "h"] (Ident "uint16"); mkField ["at"] (SelectorExpr (Ident "raw") "Time")] ""
  = (None,
     "type " +:+ "Size" +:+ " struct {" +:+ nl
     +:+ joined (map exportedField (declaredNames
           [mkField ["w"; "h"] (Ident "uint16");
            mkField ["at"] (SelectorExpr (Ident "raw") "Time")]))
     +:+ "}" +:+ nl +:+ nl)
  /\ (forall c rest, (nat_of_ascii c <? 128) = true ->
        tocamelcase (String c rest) = String (asciiUpper c) rest)
  /\ writeExportedType (tocamelcase "point")
       [mkField ["x"] (Ident "int32"); mkField ["y"] (Ident "int32")] ""
     = (None,
        "type Point struct {" +:+ nl +:+ tab +:+ "X int" +:+ nl
        +:+ tab +:+ "Y int" +:+ nl +:+ "}" +:+ nl +:+ nl)
  /\ writeAccessorFuncs "point"
       [mkField ["x"] (Ident "int32"); mkField ["y"] (Ident "int32")] ""
     = (None,
        "func (r *point) X() int { return int(r.x) }" +:+ nl +:+ nl
        +:+ "func (r *point) Y() int { return int(r.y) }" +:+ nl +:+ nl).
Proof.
  apply (exported_type_layout "Size"
           [mkField ["w"; "h"] (Ident "uint16");
            mkField ["at"] (SelectorExpr (Ident "raw") "Time")]).
  reflexivity.
Defined.

(** C7 as stated fails on [type stamp struct { raw.Time }]: the struct is
    raw and has one field, the embedded [raw.Time], and the exported type
    that is written has none. *)
Lemma embedded_field_dropped :
  isRawStructType [mkField [] (SelectorExpr (Ident "raw") "Time")] = true
  /\ writeExportedType "Stamp" [mkField [] (SelectorExpr (Ident "raw") "Time")] ""
     = (None, "type Stamp struct {" +:+ nl +:+ "}" +:+ nl +:+ nl).
Proof. split; vm_compute; reflexivity. Qed.

(** ** Decoding what was encoded *)

Module GeneratedFacts.

Import Generated.
Local Open Scope Z_scope.

Lemma inSigned_spec (bits z : Z) :
  inSigned bits z = true <-> - 2 ^ (bits - 1) <= z < 2 ^ (bits - 1).
Proof. unfold inSigned. rewrite andb_true_iff, Z.leb_le, Z.ltb_lt. tauto. Qed.

Lemma inUnsigned_spec (bits z : Z) :
  inUnsigned bits z = true <-> 0 <= z < 2 ^ bits.
Proof. unfold inUnsigned. rewrite andb_true_iff, Z.leb_le, Z.ltb_lt. tauto. Qed.

Lemma pow2_double (bits : Z) : 0 < bits -> 2 ^ bits = 2 * 2 ^ (bits - 1).
Proof.
  intros H. replace bits with (Z.succ (bits - 1)) at 1 by lia.
  apply Z.pow_succ_r. lia.
Qed.

(** A value of the declared width is kept by the conversion, and only
    such a value. *)
Lemma toSigned_exact (bits z : Z) :
  0 < bits -> (toSigned bits z = z <-> inSigned bits z = true).
Proof.
  intros Hb. rewrite inSigned_spec. unfold toSigned.
  pose proof (pow2_double bits Hb) as H2.
  assert (Hpos : 0 < 2 ^ (bits - 1)) by (apply Z.pow_pos_nonneg; lia).
  split.
  - intros H. pose proof (Z.mod_pos_bound (z + 2 ^ (bits - 1)) (2 ^ bits)). lia.
  - intros H. rewrite Z.mod_small; lia.
Qed.

Lemma toUnsigned_exact (bits z : Z) :
  0 <= bits -> (toUnsigned bits z = z <-> inUnsigned bits z = true).
Proof.
  intros Hb. rewrite inUnsigned_spec. unfold toUnsigned.
  assert (Hpos : 0 < 2 ^ bits) by (apply Z.pow_pos_nonneg; lia).
  split.
  - intros H. pose proof (Z.mod_pos_bound z (2 ^ bits)). lia.
  - intros H. now apply Z.mod_small.
Qed.

Lemma inSigned_wider (bits z : Z) :
  0 < bits <= 64 -> inSigned bits z = true -> inSigned 64 z = true.
Proof.
  rewrite !inSigned_spec. intros Hb H.
  assert (2 ^ (bits - 1) <= 2 ^ (64 - 1)) by (apply Z.pow_le_mono_r; lia).
  lia.
Qed.

Lemma inUnsigned_wider (bits z : Z) :
  0 <= bits <= 64 -> inUnsigned bits z = true -> inUnsigned 64 z = true.
Proof.
  rewrite !inUnsigned_spec. intros Hb H.
  assert (2 ^ bits <= 2 ^ 64) by (apply Z.pow_le_mono_r; lia).
  lia.
Qed.

Lemma kindOf_OK (typ : string) (k : kind) : kindOf typ = Some k -> kindOK k.
Proof.
  unfold kindOf, oneOf. cbn [existsb].
  repeat match goal with
    | |- context [String.eqb typ ?x] =>
        destruct (String.eqb typ x); cbn [orb];
        [intros [= <-]; cbn; try lia; exact I|]
    end.
  discriminate.
Qed.

Lemma substring_head (s more : string) :
  String.substring 0 (String.length s) (s +:+ more) = s.
Proof.
  induction s as [|c s IH]; [now destruct more|].
  rewrite Str.app_cons. cbn [String.length String.substring]. now rewrite IH.
Qed.

Lemma substring_mid (a s more : string) :
  String.substring (String.length a) (String.length s) ((a +:+ s) +:+ more) = s.
Proof.
  induction a as [|c a IH].
  - rewrite Str.app_nil_l. apply substring_head.
  - rewrite !Str.app_cons. cbn [String.length String.substring]. exact IH.
Qed.

Section RoundTrip.

Variables F32 F64 : Type.
Variable sz : nat.

(** One field: the accessor, on any buffer that extends the one [Encode]
    had reached, returns the value that was encoded. *)
Lemma field_round_trip (k : kind) (v : extValue F32 F64) (strs : string) :
  kindOK k -> fits k v = true ->
  exists r tail,
    encodeField sz k v strs = Some (r, strs +:+ tail)
    /\ String.length tail = stringBytes [("", v)]
    /\ forall more,
         Z.of_nat (sz + String.length (strs +:+ tail)) <= windowCap ->
         accessField sz k r ((strs +:+ tail) +:+ more) = Some v.
Proof.
  intros Hk Hfit.
  destruct k, v; try discriminate Hfit; cbn [fits kindOK] in *;
    try (eexists; exists ""; rewrite Str.app_nil_r;
         split; [reflexivity|]; split; [reflexivity|];
         intros more _; cbn [accessField]; unfold nanos).
  - reflexivity.
  - apply toSigned_exact in Hfit as Hz; [|lia]. rewrite Hz.
    apply inSigned_wider in Hfit; [|lia].
    apply toSigned_exact in Hfit; [|lia]. now rewrite Hfit.
  - apply toUnsigned_exact in Hfit as Hz; [|lia]. rewrite Hz.
    apply inUnsigned_wider in Hfit; [|lia].
    apply toUnsigned_exact in Hfit; [|lia]. now rewrite Hfit.
  - reflexivity.
  - reflexivity.
  - apply toSigned_exact in Hfit; [|lia]. now rewrite !Hfit.
  - apply toSigned_exact in Hfit; [|lia]. now rewrite !Hfit.
  - exists (RString (sz + String.length strs) (String.length s)), s.
    split; [reflexivity|]. split; [cbn; lia|].
    intros more Hcap. cbn [accessField]. unfold String_String.
    rewrite !Str.length_app in *.
    replace (sz + String.length strs - sz)%nat with (String.length strs) by lia.
    rewrite substring_mid.
    destruct (_ && _ && _) eqn:E; [reflexivity|].
    exfalso. rewrite !andb_false_iff in E.
    rewrite !Nat.leb_gt, Z.leb_gt in E. lia.
Qed.

Lemma stringBytes_cons (typ : string) (v : extValue F32 F64)
    (rest : list (string * extValue F32 F64)) :
  stringBytes ((typ, v) :: rest)
  = (stringBytes [("", v)] + stringBytes rest)%nat.
Proof. destruct v; cbn; lia. Qed.

Lemma fields_round_trip (fs : list (string * extValue F32 F64)) (strs : string) :
  fitsAll fs = true ->
  exists rs tail,
    encodeFields sz fs strs = Some (rs, strs +:+ tail)
    /\ String.length tail = stringBytes fs
    /\ forall more,
         Z.of_nat (sz + String.length (strs +:+ tail)) <= windowCap ->
         decodeFields sz (map fst fs) rs ((strs +:+ tail) +:+ more)
         = Some (map snd fs).
Proof.
  revert strs. induction fs as [|[typ v] rest IH]; intros strs Hfit.
  - exists [], "". rewrite Str.app_nil_r. now repeat split.
  - cbn [fitsAll forallb fst snd] in Hfit.
    apply andb_prop in Hfit as [Hv Hrest].
    destruct (kindOf typ) as [k|] eqn:Ek; [|discriminate].
    destruct (field_round_trip k v strs (kindOf_OK _ _ Ek) Hv)
      as (r & t1 & He & Hl1 & Ha).
    destruct (IH (strs +:+ t1) Hrest) as (rs & t2 & Hes & Hl2 & Hd).
    exists (r :: rs), (t1 +:+ t2).
    cbn [encodeFields]. rewrite Ek, He, Hes, <- Str.app_assoc.
    split; [reflexivity|]. split.
    { rewrite Str.length_app, stringBytes_cons. lia. }
    intros more Hcap. cbn [map decodeFields fst snd]. rewrite Ek.
    rewrite Str.app_assoc, Ha, <- Str.app_assoc.
    + rewrite Hd; [reflexivity|]. exact Hcap.
    + rewrite !Str.length_app in *. lia.
Qed.

End RoundTrip.

End GeneratedFacts.





(** * Further properties *)

(** ** What [process] does to the files and the log *)

Lemma process_files ParseFile (path : string) (st : world) :
  files (snd (process ParseFile path st)) = files st
  \/ exists f0 out,
       files st !! path = Some f0
       /\ files (snd (process ParseFile path st))
          = <[path := mkFile out true]> (files st).
Proof.
  destruct (files st !! path) as [f0|] eqn:E0.
  2:{ rewrite (process_missing _ _ _ E0). now left. }
  destruct (generate ParseFile path (content f0)) as [out|e] eqn:EG.
  2:{ rewrite (process_failed _ _ _ _ _ E0 EG). now left. }
  destruct (writable f0) eqn:Ew.
  - rewrite (process_written _ _ _ _ _ E0 Ew EG). right. now exists f0, out.
  - rewrite (process_not_written _ _ _ _ _ E0 Ew EG). now left.
Qed.

(** X1.  Whenever [process] returns an error, be it of reading, of
    parsing or of generating, the files and the log are exactly what they
    were: nothing is written and no OK line is logged. *)
Theorem process_failure_changes_nothing
    (ParseFile : string -> string -> result File) (path : string) (st : world)
    (e : error) :
  fst (process ParseFile path st) = Some e ->
  snd (process ParseFile path st) = st.
Proof.
  rewrite process_generate.
  destruct (ioutil.ReadFile path st) as [src|e1]; [|reflexivity].
  destruct (generate ParseFile path src) as [out|e1]; [discriminate | reflexivity].
Qed.

(** X2.  [process] touches no file but the one it is given, and neither
    creates nor removes a file. *)
Theorem process_touches_one_file
    (ParseFile : string -> string -> result File) (path : string) (st : world) :
  (forall p, p <> path ->
     files (snd (process ParseFile path st)) !! p = files st !! p)
  /\ (forall p, is_Some (files (snd (process ParseFile path st)) !! p)
                <-> is_Some (files st !! p)).
Proof.
  destruct (process_files ParseFile path st) as [H | (f0 & out & H0 & H)];
    rewrite H; split; intros p; try tauto.
  - intros Hp. now apply lookup_insert_ne.
  - destruct (decide (p = path)) as [->|Hp].
    + rewrite lookup_insert_eq, H0. split; eauto.
    + now rewrite lookup_insert_ne.
Qed.

(** X3.  When [process] returns nil, the file was there to be read and
    the log has grown by the one line [OK path]. *)
Theorem process_success_logs_once
    (ParseFile : string -> string -> result File) (path : string) (st : world) :
  fst (process ParseFile path st) = None ->
  is_Some (files st !! path)
  /\ stdlog (snd (process ParseFile path st)) = stdlog st ++ ["OK " +:+ path].
Proof.
  rewrite process_generate. unfold ioutil.ReadFile.
  destruct (files st !! path) as [f0|] eqn:E0; [|discriminate].
  destruct (generate ParseFile path (content f0)) as [out|e]; [|discriminate].
  intros _. split; [eauto|]. unfold ioutil.WriteFile. rewrite E0.
  now destruct (writable f0).
Qed.

Lemma process_failure_changes_nothing_witness :
  snd (process badParse "geo.go" (geoWorld badSrc true)) = geoWorld badSrc true.
Proof.
  apply (process_failure_changes_nothing badParse "geo.go"
           (geoWorld badSrc true) (ErrExportedRaw "Bad")).
  vm_compute. reflexivity.
Defined.

Lemma process_success_logs_once_witness :
  is_Some (files (geoWorld pointSrc true) !! "geo.go")
  /\ stdlog (snd (process badParse "geo.go" (geoWorld pointSrc true)))
     = stdlog (geoWorld pointSrc true) ++ ["OK " +:+ "geo.go"].
Proof.
  apply (process_success_logs_once badParse "geo.go" (geoWorld pointSrc true)).
  vm_compute. reflexivity.
Defined.

(** ** Stripping and trimming *)

Lemma containsFold_skip (m s : string) (n : nat) :
  containsFold m s = false -> containsFold m (skip n s) = false.
Proof.
  revert s. induction n as [|n IH]; intros s H; [now destruct s|].
  destruct s as [|c s]; [assumption|].
  cbn [skip]. apply IH. cbn [containsFold] in H.
  now apply orb_false_elim in H as [_ H].
Qed.

Lemma indexFold_absent (m s : string) :
  containsFold m s = false -> indexFold m s = None.
Proof.
  induction s as [|c s IH]; cbn [containsFold indexFold]; intros H;
    apply orb_false_elim in H as [H1 H2]; rewrite H1; [reflexivity|].
  now apply IH.
Qed.

Lemma matchBlock_absent (s : string) :
  containsFold beginMarker s = false \/ containsFold endMarker s = false ->
  matchBlock s = None.
Proof.
  intros [H|H]; unfold matchBlock.
  - destruct s; cbn [containsFold] in H;
      apply orb_false_elim in H as [H _]; now rewrite H.
  - destruct (hasPrefixFold beginMarker s); [|reflexivity].
    pose proof (containsFold_skip _ _ (String.length beginMarker) H) as Hs.
    destruct (skip _ s) as [|c t]; [reflexivity|].
    apply indexFold_absent. cbn [containsFold] in Hs.
    now apply orb_false_elim in Hs as [_ Hs].
Qed.

(** X4.  A text in which the begin marker does not occur, or in which the
    end marker does not occur, in any letter case, is left as it is by the
    replacement: without a whole block there is nothing to strip. *)
Theorem ReplaceAll_without_block (s : string) :
  containsFold beginMarker s = false \/ containsFold endMarker s = false ->
  ReplaceAll s = s.
Proof.
  induction s as [|c s IH]; intros H; [reflexivity|].
  rewrite ReplaceAll_cons, (matchBlock_absent _ H). f_equal. apply IH.
  destruct H as [H|H]; [left | right]; cbn [containsFold] in H;
    now apply orb_false_elim in H as [_ H].
Qed.

Lemma ReplaceAll_without_block_witness : ReplaceAll noteSrc = noteSrc.
Proof.
  apply (ReplaceAll_without_block noteSrc). right. vm_compute. reflexivity.
Defined.

Lemma ReplaceAll_fuel_shortens (n : nat) (s : string) :
  (String.length (ReplaceAll_fuel n s) <= String.length s)%nat.
Proof.
  revert s. induction n as [|n IH]; intros s; [cbn; lia|].
  destruct s as [|c s]; [cbn; lia|]. cbn [ReplaceAll_fuel].
  destruct (matchBlock (String c s)) as [rest|] eqn:E.
  - apply matchBlock_shorter in E. specialize (IH rest). lia.
  - specialize (IH s). cbn [String.length]. lia.
Qed.

(** X5.  The replacement only removes text: its result is never longer
    than what it was given. *)
Theorem ReplaceAll_shortens (s : string) :
  (String.length (ReplaceAll s) <= String.length s)%nat.
Proof. apply ReplaceAll_fuel_shortens. Qed.

(** X6.  [TrimRight] cuts a text in two: what it returns, and a rest made
    of spaces, newlines and carriage returns only; what it returns is empty
    or ends with a character that is none of these. *)
Theorem TrimRight_splits (s : string) :
  (exists ws, s = TrimRight s +:+ ws /\ allCut ws = true)
  /\ (TrimRight s = ""
      \/ exists t c, TrimRight s = t +:+ String c "" /\ inCutset c = false).
Proof.
  induction s as [|c s [(ws & Hs & Hws) Hend]].
  - split; [exists ""; now split | now left].
  - cbn [TrimRight]. destruct (TrimRight s) as [|d t] eqn:E.
    + rewrite Str.app_nil_l in Hs. subst ws.
      destruct (inCutset c) eqn:Ec.
      * split; [|now left]. exists (String c s). split; [reflexivity|].
        cbn [allCut]. now rewrite Ec, Hws.
      * split; [exists s; now split|]. right. exists "", c. now split.
    + split.
      * exists ws. split; [|assumption]. rewrite Str.app_cons. now f_equal.
      * right. destruct Hend as [Hend | (t' & c' & Ht & Hc)]; [discriminate|].
        exists (String c t'), c'. rewrite Ht. now split.
Qed.

(** ** The walk over the declarations *)

(** X7.  The declarations that come after the first one that fails are
    not visited: the generator stays as that visit left it, error and
    buffer. *)
Theorem Walk_stops_at_first_error (g : generator) (pre post : File)
    (node : TypeSpec) (e : error) :
  err (Walk g pre) = None ->
  fst (visitTypeSpec node (w (Walk g pre))) = Some e ->
  Walk g (pre ++ node :: post) = Visit (Walk g pre) node
  /\ err (Walk g (pre ++ node :: post)) = Some e.
Proof.
  intros Hpre He.
  assert (HV : err (Visit (Walk g pre) node) = Some e).
  { unfold Visit. rewrite Hpre.
    destruct (visitTypeSpec node (w (Walk g pre))) as [r buf].
    cbn [fst] in He. now subst r. }
  assert (HW : Walk g (pre ++ node :: post) = Visit (Walk g pre) node).
  { unfold Walk at 1. rewrite fold_left_app. cbn [fold_left].
    fold (Walk g pre). fold (Walk (Visit (Walk g pre) node) post).
    now apply (Walk_err post _ e). }
  now rewrite HW.
Qed.

Lemma Walk_stops_at_first_error_witness :
  Walk (mkGenerator "" None) ([point] ++ bad :: [size])
  = Visit (Walk (mkGenerator "" None) [point]) bad
  /\ err (Walk (mkGenerator "" None) ([point] ++ bad :: [size]))
     = Some (ErrExportedRaw "Bad").
Proof.
  apply (Walk_stops_at_first_error (mkGenerator "" None) [point] [size] bad
           (ErrExportedRaw "Bad")).
  - vm_compute. reflexivity.
  - vm_compute. reflexivity.
Defined.

(** X8.  A visit never alters what is in the buffer: whatever the
    declaration, and whether it succeeds or fails, it returns the same
    result and adds the same text at the end, whatever the buffer holds. *)
Theorem visitTypeSpec_only_appends (node : TypeSpec) (buf : string) :
  visitTypeSpec node buf
  = (fst (visitTypeSpec node ""), buf +:+ snd (visitTypeSpec node "")).
Proof. apply visitTypeSpec_appending. Qed.

(** ** Classifier and emitters *)

(** X9.  The classifier accepts exactly the structs all of whose fields
    have a declared type among the fourteen raw types; a struct put
    together from two field lists is raw exactly when both are. *)
Theorem isRawStructType_exact (s : list Field) :
  (isRawStructType s = true
   <-> Forall (fun f => In (tostr (FieldType f)) rawTypeNames) s)
  /\ (forall a b : list Field,
        isRawStructType (a ++ b) = isRawStructType a && isRawStructType b).
Proof.
  split; [apply isRawStructType_Forall|].
  intros a b. rewrite !isRawStructType_forallb. apply forallb_app.
Qed.

Lemma writeExportedType_fields_None (s : list Field) :
  fst (writeExportedType_fields s "") = None -> isRawStructType s = true.
Proof.
  rewrite isRawStructType_forallb.
  induction s as [|f rest IH]; [reflexivity|].
  cbn [writeExportedType_fields forallb].
  destruct (exportedTypeOf (tostr (FieldType f))) as [typ|] eqn:E;
    [|discriminate].
  rewrite fst_bind;
    [| apply writeExportedType_names_appending
     | intros; apply writeExportedType_fields_appending].
  intros H. rewrite (IH H), andb_true_r.
  apply exportedTypeOf_raw. congruence.
Qed.

(** X10.  The classifier and the emitter of the exported type agree on
    every struct: [writeExportedType] returns nil exactly on the structs
    that [isRawStructType] accepts. *)
Theorem writeExportedType_agrees_with_classifier (name : string) (s : list Field) :
  fst (writeExportedType name s "") = None <-> isRawStructType s = true.
Proof.
  split; [|apply writeExportedType_raw].
  unfold writeExportedType.
  rewrite fst_bind; [| appending | intros; appending; apply writeExportedType_fields_appending].
  rewrite fst_bind; [| apply writeExportedType_fields_appending | intros; appending].
  destruct (fst (writeExportedType_fields s "")) eqn:E; [discriminate|].
  intros _. now apply writeExportedType_fields_None.
Qed.

(** X11.  On a struct the classifier accepts, the emitter of the
    accessors returns nil; the emitter of [Decode] returns nil on every
    struct. *)
Theorem accessors_and_decode_do_not_fail (unexp exp : string) (s : list Field) :
  isRawStructType s = true ->
  fst (writeAccessorFuncs unexp s "") = None
  /\ (forall s' : list Field, fst (writeDecodeFunc unexp exp s' "") = None).
Proof.
  intros H. split; [now apply writeAccessorFuncs_raw|].
  intros s'. apply writeDecodeFunc_ok.
Qed.

Lemma accessors_and_decode_do_not_fail_witness :
  fst (writeAccessorFuncs "size" sharedType "") = None
  /\ (forall s' : list Field, fst (writeDecodeFunc "size" "Size" s' "") = None).
Proof.
  apply (accessors_and_decode_do_not_fail "size" "Size" sharedType).
  reflexivity.
Defined.

Lemma writeEncodeFunc_names_uint (ft : string) (names : list string) :
  fst (writeEncodeFunc_names ft "uint" names "")
  = match names with [] => None | _ :: _ => Some (ErrInvalidRawType ft) end.
Proof. destruct names; reflexivity. Qed.

Lemma writeEncodeFunc_names_numeric (t : string) (names : list string) :
  numericType t = true ->
  fst (writeEncodeFunc_names t t names "")
  = if (2 <=? List.length names)%nat then Some (ErrInvalidRawType t) else None.
Proof.
  intros H. destruct names as [|n ns]; [reflexivity|].
  assert (E : fst (writeEncodeFunc_names t t (n :: ns) "")
              = fst (writeEncodeFunc_names t "uint" ns "")).
  { apply oneOf_In in H. cbn [In] in H.
    decompose [or] H; try contradiction; subst;
      cbn [writeEncodeFunc_names oneOf existsb String.eqb Ascii.eqb Bool.eqb orb];
      (rewrite fst_bind;
       [reflexivity | appending | intros; apply writeEncodeFunc_names_appending]). }
  rewrite E, writeEncodeFunc_names_uint. now destruct ns.
Qed.

Lemma writeEncodeFunc_names_other (t : string) (names : list string) :
  oneOf t rawTypeNames = true -> numericType t = false ->
  fst (writeEncodeFunc_names t t names "") = None.
Proof.
  intros Hraw Hnum. induction names as [|n ns IH]; [reflexivity|].
  apply oneOf_In in Hraw. unfold rawTypeNames in Hraw. cbn [In] in Hraw.
  decompose [or] Hraw; try contradiction; subst;
    try (vm_compute in Hnum; discriminate Hnum);
    cbn [writeEncodeFunc_names oneOf existsb String.eqb Ascii.eqb Bool.eqb orb];
    (rewrite fst_bind;
     [exact IH | appending | intros; apply writeEncodeFunc_names_appending]).
Qed.

Lemma writeEncodeFunc_fields_shared (s : list Field) :
  isRawStructType s = true ->
  (fst (writeEncodeFunc_fields s "") = None <-> existsb sharesNumeric s = false).
Proof.
  rewrite isRawStructType_forallb.
  induction s as [|f rest IH]; [now split|].
  cbn [forallb existsb writeEncodeFunc_fields]. intros H.
  apply andb_prop in H as [Ht Hrest]. specialize (IH Hrest).
  rewrite fst_bind;
    [| apply writeEncodeFunc_names_appending
     | intros; appending; apply writeEncodeFunc_fields_appending].
  unfold sharesNumeric at 1.
  destruct (numericType (tostr (FieldType f))) eqn:En.
  - rewrite (writeEncodeFunc_names_numeric _ _ En). cbn [andb].
    destruct (2 <=? List.length (Names f))%nat; cbn [orb]; [now split | exact IH].
  - rewrite (writeEncodeFunc_names_other _ _ Ht En). exact IH.
Qed.

(** X12.  On a struct the classifier accepts, the emitter of [Encode]
    fails exactly when some field of a numeric type is declared with two
    names or more, as in [x, y int32]. *)
Theorem writeEncodeFunc_fails_on_shared_names (unexp exp : string) (s : list Field) :
  isRawStructType s = true ->
  (fst (writeEncodeFunc unexp exp s "") = None <-> existsb sharesNumeric s = false).
Proof.
  intros Hraw. rewrite <- (writeEncodeFunc_fields_shared s Hraw).
  unfold writeEncodeFunc.
  repeat (rewrite fst_bind;
          [| appending; apply writeEncodeFunc_fields_appending
           | intros; appending; apply writeEncodeFunc_fields_appending]).
  destruct (fst (writeEncodeFunc_fields s "")); [now split|].
  repeat (rewrite fst_bind; [| appending | intros; appending]).
  now split.
Qed.

Lemma writeEncodeFunc_fails_on_shared_names_witness :
  fst (writeEncodeFunc "size" "Size"
         [mkField ["w"] (Ident "uint16"); mkField ["at"; "till"] (SelectorExpr (Ident "raw") "Time")] "")
  = None
  <-> existsb sharesNumeric
        [mkField ["w"] (Ident "uint16"); mkField ["at"; "till"] (SelectorExpr (Ident "raw") "Time")]
      = false.
Proof.
  apply (writeEncodeFunc_fails_on_shared_names "size" "Size"
           [mkField ["w"] (Ident "uint16");
            mkField ["at"; "till"] (SelectorExpr (Ident "raw") "Time")]).
  reflexivity.
Defined.

(** ** The errors of a visit *)

Lemma writeEncodeFunc_unshared (unexp exp : string) (s : list Field) :
  isRawStructType s = true -> existsb sharesNumeric s = false ->
  fst (writeEncodeFunc unexp exp s "") = None.
Proof.
  intros Hraw Hs. apply (writeEncodeFunc_fields_shared s Hraw) in Hs.
  unfold writeEncodeFunc.
  repeat (rewrite fst_bind;
          [| appending; apply writeEncodeFunc_fields_appending
           | intros; appending; apply writeEncodeFunc_fields_appending]).
  rewrite Hs.
  repeat (rewrite fst_bind; [| appending | intros; appending]).
  reflexivity.
Qed.

Lemma orReturn_Some m e0 k (e : error) :
  Appending m -> Appending k ->
  fst (orReturn m e0 k "") = Some e ->
  (fst (m "") <> None /\ e = e0) \/ (fst (m "") = None /\ fst (k "") = Some e).
Proof.
  intros Hm Hk. rewrite orReturn_out by assumption.
  destruct (fst (m "")) as [x|]; cbn [fst]; intros H.
  - left. split; [discriminate | congruence].
  - right. now split.
Qed.

(** The errors of the sequence of writes of [visitTypeSpec], over any four
    emitters. *)
Lemma block_errors (h1 h2 h3 h4 h5 t : string) m1 m2 m3 m4 e1 e2 e3 e4 (e : error) :
  Appending m1 -> Appending m2 -> Appending m3 -> Appending m4 ->
  fst ((Fprint h1 ;; Fprint h2 ;; Fprint h3 ;; Fprint h4 ;; Fprint h5 ;;
        orReturn m1 e1 (orReturn m2 e2 (orReturn m3 e3 (orReturn m4 e4
          (Fprint t ;; ret (@None error)))))) "") = Some e ->
  (fst (m1 "") <> None /\ e = e1)
  \/ (fst (m2 "") <> None /\ e = e2)
  \/ (fst (m3 "") <> None /\ e = e3)
  \/ (fst (m4 "") <> None /\ e = e4).
Proof.
  intros H1 H2 H3 H4.
  assert (Hk4 : Appending (Fprint t ;; ret (@None error))) by auto with appending.
  assert (Hk3 : Appending (orReturn m4 e4 (Fprint t ;; ret (@None error))))
    by auto with appending.
  assert (Hk2 : Appending (orReturn m3 e3 (orReturn m4 e4
                  (Fprint t ;; ret (@None error))))) by auto with appending.
  assert (Hk1 : Appending (orReturn m2 e2 (orReturn m3 e3 (orReturn m4 e4
                  (Fprint t ;; ret (@None error)))))) by auto with appending.
  repeat (rewrite Fprint_bind_out; [| auto 10 with appending]).
  cbn [fst]. intros H.
  apply orReturn_Some in H as [H|[_ H]]; [tauto | | assumption ..].
  apply orReturn_Some in H as [H|[_ H]]; [tauto | | assumption ..].
  apply orReturn_Some in H as [H|[_ H]]; [tauto | | assumption ..].
  apply orReturn_Some in H as [H|[_ H]]; [tauto | | assumption ..].
  rewrite Fprint_bind_out in H by auto with appending. discriminate H.
Qed.



(** X14.  When the walk over the declarations gets to a raw struct whose
    name starts with a byte that is an upper-case letter, read as a code
    point of its own, [process] returns the error that names it and leaves
    the files and the log as they were. *)
Theorem exported_first_byte_refused
    (ParseFile : string -> string -> result File) (path : string) (st : world)
    (f0 : file) (pre post : File) (node : TypeSpec) (c : ascii) (rest : string) :
  files st !! path = Some f0 ->
  ParseFile path (TrimRight (ReplaceAll (content f0))) = Ok (pre ++ node :: post) ->
  err (Walk (mkGenerator (TrimRight (ReplaceAll (content f0)) +:+ nl +:+ nl) None)
         pre) = None ->
  eligible node = true ->
  Name node = String c rest ->
  unicode.IsUpper (nat_of_ascii c) = true ->
  process ParseFile path st = (Some (ErrExportedRaw (Name node)), st).
Proof. apply process_exported. Qed.

Lemma exported_first_byte_refused_witness :
  process badParse "geo.go" (geoWorld badSrc true)
  = (Some (ErrExportedRaw (Name bad)), geoWorld badSrc true).
Proof.
  apply (exported_first_byte_refused badParse "geo.go" (geoWorld badSrc true)
           (mkFile badSrc true) [] [] bad "B"%char "ad").
  - reflexivity.
  - vm_compute. reflexivity.
  - reflexivity.
  - reflexivity.
  - reflexivity.
  - reflexivity.
Defined.

(** X15.  A struct without fields whose name starts with a byte that is
    not an upper-case letter gets a block: the header, an exported type
    without fields, [Encode] and [Decode] methods without a statement for
    any field, no accessor, and the end marker. *)
Theorem empty_struct_gets_block (c : ascii) (rest : string) :
  unicode.IsUpper (nat_of_ascii c) = false ->
  visitTypeSpec (mkTypeSpec (String c rest) (StructType [])) ""
  = (None, blockBegin +:+ emptyBody (String c rest) +:+ blockEnd).
Proof. apply empty_struct_generated. Qed.

Lemma empty_struct_gets_block_witness :
  visitTypeSpec unitDecl "" = (None, blockBegin +:+ emptyBody "unit" +:+ blockEnd).
Proof.
  apply (empty_struct_gets_block "u"%char "nit"). reflexivity.
Defined.

(** ** The type expressions that give a raw type *)

Lemma noDot_app (a b : string) : noDot (a +:+ b) = noDot a && noDot b.
Proof.
  induction a as [|c a IH]; [reflexivity|].
  rewrite Str.app_cons. cbn [noDot]. now rewrite IH, andb_assoc.
Qed.

Lemma noDot_selector (a b : string) : noDot (a +:+ "." +:+ b) = false.
Proof.
  rewrite noDot_app. change ("." +:+ b) with (String "."%char b).
  cbn [noDot Ascii.eqb Bool.eqb negb andb]. apply andb_false_r.
Qed.

Lemma last_dot_unique (a b c d : string) :
  noDot b = true -> noDot d = true ->
  a +:+ "." +:+ b = c +:+ "." +:+ d -> a = c /\ b = d.
Proof.
  intros Hb Hd. revert c.
  induction a as [|x a IH]; intros [|y c].
  - rewrite !Str.app_nil_l. change ("." +:+ b) with (String "."%char b).
    change ("." +:+ d) with (String "."%char d). intros [= E]. now split.
  - rewrite Str.app_nil_l, (Str.app_cons y).
    change ("." +:+ b) with (String "."%char b).
    intros [= _ E]. rewrite E, noDot_selector in Hb. discriminate Hb.
  - rewrite Str.app_nil_l, (Str.app_cons x).
    change ("." +:+ d) with (String "."%char d).
    intros [= _ E]. rewrite <- E, noDot_selector in Hd. discriminate Hd.
  - rewrite !Str.app_cons. intros [= -> E]. destruct (IH _ E) as [-> ->].
    now split.
Qed.

(** X16.  With identifiers that hold no dot, [tostr] gives the name of a
    raw type for two shapes of type expression only: one of the eleven
    built-in identifiers, or [Time], [Duration] or [String] selected from
    the identifier [raw].  A pointer, an array, a selection from another
    package or a longer selection never does. *)
Theorem tostr_raw_shapes (e : Expr) :
  dotFree e = true ->
  (In (tostr e) rawTypeNames
   <-> (exists t, e = Ident t /\ In t builtinTypes)
       \/ (exists sel, e = SelectorExpr (Ident "raw") sel /\ In sel packageTypes)).
Proof.
  intros Hd. split.
  - destruct e as [name|x sel|s|]; cbn [tostr dotFree] in *.
    + intros H. left. exists name. split; [reflexivity|].
      unfold rawTypeNames in H. unfold builtinTypes. cbn [In] in *.
      decompose [or] H; try contradiction; subst;
        try (vm_compute in Hd; discriminate Hd); tauto.
    + apply andb_prop in Hd as [Hx Hsel]. intros H. right. exists sel.
      assert (Hraw : tostr x = "raw" /\ In sel packageTypes).
      { unfold rawTypeNames in H. unfold packageTypes. cbn [In] in *.
        decompose [or] H; try contradiction;
          match goal with
          | E : ?t = tostr x +:+ "." +:+ sel |- _ =>
              first
                [ apply (f_equal noDot) in E; rewrite noDot_selector in E;
                  vm_compute in E; discriminate E
                | apply (last_dot_unique "raw" _ (tostr x) sel) in E;
                  [destruct E as [<- <-]; tauto | reflexivity | exact Hsel] ]
          end. }
      destruct Hraw as [Hx' Hin]. split; [|exact Hin].
      destruct x as [name|y s2|s|]; cbn [tostr] in Hx'.
      * now subst name.
      * apply (f_equal noDot) in Hx'. rewrite noDot_selector in Hx'.
        discriminate Hx'.
      * discriminate Hx'.
      * discriminate Hx'.
    + intros H. exfalso. unfold rawTypeNames in H. cbn [In] in H.
      decompose [or] H; try contradiction; discriminate.
    + intros H. exfalso. unfold rawTypeNames in H. cbn [In] in H.
      decompose [or] H; try contradiction; discriminate.
  - intros [[t [-> H]]|[sel [-> H]]]; cbn [tostr].
    + unfold builtinTypes in H. unfold rawTypeNames. cbn [In] in *.
      decompose [or] H; try contradiction; subst; tauto.
    + unfold packageTypes in H. unfold rawTypeNames. cbn [In] in *.
      decompose [or] H; try contradiction; subst; vm_compute; tauto.
Qed.

Lemma tostr_raw_shapes_witness :
  In (tostr (SelectorExpr (Ident "raw") "Time")) rawTypeNames
  <-> (exists t, SelectorExpr (Ident "raw") "Time" = Ident t /\ In t builtinTypes)
      \/ (exists sel, SelectorExpr (Ident "raw") "Time" = SelectorExpr (Ident "raw") sel
                      /\ In sel packageTypes).
Proof.
  apply (tostr_raw_shapes (SelectorExpr (Ident "raw") "Time")). reflexivity.
Defined.

(** ** The generated text and the markers *)

Lemma containsFold_noSlash (m s : string) :
  noSlash s = true -> containsFold (String "/" m) s = false.
Proof.
  induction s as [|c s IH]; [reflexivity|].
  cbn [noSlash containsFold hasPrefixFold]. intros H.
  apply andb_prop in H as [Hc Hs]. rewrite (IH Hs), orb_false_r.
  destruct (eqFold "/" c) eqn:E; [|reflexivity].
  apply eqFold_slash in E. subst c. discriminate Hc.
Qed.

(** X17.  With names free of slashes, what the four emitters write for a
    declaration holds no slash, so neither marker, in any case of letters:
    the markers of a block are its first and its last line only. *)
Theorem generated_body_without_marker (node : TypeSpec) :
  identsOK node = true ->
  noSlash (blockBody node) = true
  /\ containsFold beginMarker (blockBody node) = false
  /\ containsFold endMarker (blockBody node) = false.
Proof.
  intros H. apply blockBody_noSlash in H.
  split; [exact H|]. split; now apply containsFold_noSlash.
Qed.

Lemma generated_body_without_marker_witness :
  noSlash (blockBody point) = true
  /\ containsFold beginMarker (blockBody point) = false
  /\ containsFold endMarker (blockBody point) = false.
Proof.
  apply (generated_body_without_marker point). reflexivity.
Defined.

(** ** [Decode] and the accessors *)

Lemma writeDecodeFunc_names_out (t : string) (names : list string) :
  snd (writeDecodeFunc_names names "")
  = joined (map decodeLine (map (fun n => (n, t)) names)).
Proof.
  induction names as [|n ns IH]; [reflexivity|].
  cbn [writeDecodeFunc_names map joined].
  rewrite Fprint_bind_out by apply writeDecodeFunc_names_appending.
  cbn [snd]. rewrite IH. unfold decodeLine at 2. cbn [fst].
  now rewrite !Str.app_assoc.
Qed.

Lemma writeDecodeFunc_fields_out (s : list Field) :
  snd (writeDecodeFunc_fields s "") = joined (map decodeLine (declaredNames s)).
Proof.
  induction s as [|f rest IH]; [reflexivity|].
  cbn [writeDecodeFunc_fields declaredNames flat_map].
  rewrite map_app, joined_app.
  rewrite snd_bind;
    [| apply writeDecodeFunc_names_appending
     | intros; apply writeDecodeFunc_fields_appending].
  rewrite (writeDecodeFunc_names_out (tostr (FieldType f))). f_equal. exact IH.
Qed.

(** X18.  For any struct, [writeDecodeFunc] returns no error and writes
    the method [Decode] of the exported type: the cast of the first byte
    to the unexported type, then one assignment for each declared name, in
    the order of the declaration, from the accessor of the same name.  A
    field declared with several names gets several assignments, an
    embedded field none. *)
Theorem writeDecodeFunc_layout (unexp exp : string) (s : list Field) :
  writeDecodeFunc unexp exp s ""
  = (None,
     "func (o *" +:+ exp +:+ ") Decode(b []byte) {" +:+ nl
     +:+ tab +:+ "r := (*" +:+ unexp +:+ ")(unsafe.Pointer(&b[0]))" +:+ nl
     +:+ joined (map decodeLine (declaredNames s))
     +:+ "}" +:+ nl +:+ nl).
Proof.
  unfold writeDecodeFunc.
  rewrite Fprint_bind_out
    by (appending; apply writeDecodeFunc_fields_appending).
  rewrite Fprint_bind_out
    by (appending; apply writeDecodeFunc_fields_appending).
  cbn [fst snd].
  rewrite fst_bind, snd_bind;
    try (apply writeDecodeFunc_fields_appending); try (intros; appending).
  rewrite Fprint_bind_out by appending. cbn [fst snd ret].
  rewrite writeDecodeFunc_fields_out.
  now rewrite !Str.app_assoc, ?Str.app_nil_r.
Qed.

Lemma writeAccessorFuncs_names_cons (name t n : string) (ns : list string) :
  In t rawTypeNames ->
  snd (writeAccessorFuncs_names name t (n :: ns) "")
  = snd (writeAccessorFuncs_names name t [n] "")
    +:+ snd (writeAccessorFuncs_names name t ns "").
Proof.
  intros H. unfold rawTypeNames in H. cbn [In] in H.
  decompose [or] H; try contradiction; subst;
    cbn [writeAccessorFuncs_names oneOf existsb String.eqb Ascii.eqb Bool.eqb orb];
    repeat (rewrite Fprint_bind_out;
            [| appending; apply writeAccessorFuncs_names_appending]);
    cbn [snd ret];
    now rewrite ?Str.app_nil_r, ?Str.app_assoc.
Qed.

Lemma writeAccessorFuncs_names_head (name t n : string) :
  In t rawTypeNames ->
  exists rest,
    snd (writeAccessorFuncs_names name t [n] "")
    = "func (r *" +:+ name +:+ ") " +:+ tocamelcase n +:+ "() " +:+ rest.
Proof.
  intros H. unfold rawTypeNames in H. cbn [In] in H.
  decompose [or] H; try contradiction; subst;
    cbn [writeAccessorFuncs_names oneOf existsb String.eqb Ascii.eqb Bool.eqb orb];
    repeat (rewrite Fprint_bind_out; [| appending]);
    cbn [snd ret];
    rewrite ?Str.app_nil_r, !Str.app_assoc; eexists; reflexivity.
Qed.

Lemma writeAccessorFuncs_names_out (name t : string) (names : list string) :
  In t rawTypeNames ->
  snd (writeAccessorFuncs_names name t names "")
  = joined (map (accessorsOf name) (map (fun n => (n, t)) names)).
Proof.
  intros Ht. induction names as [|n ns IH]; [reflexivity|].
  rewrite (writeAccessorFuncs_names_cons _ _ _ _ Ht), IH.
  cbn [map joined]. reflexivity.
Qed.

(** X19.  For a struct the classifier accepts, the accessors written are
    those of each declared name, one after the other in the order of the
    declaration, and those of a name start with a method of the unexported
    type that takes no argument and has the name in camel case: the method
    that the assignment of [Decode] for that name calls. *)
Theorem accessors_per_declared_name (unexp : string) (s : list Field) :
  isRawStructType s = true ->
  snd (writeAccessorFuncs unexp s "")
  = joined (map (accessorsOf unexp) (declaredNames s))
  /\ Forall (fun d => exists rest,
               accessorsOf unexp d
               = "func (r *" +:+ unexp +:+ ") " +:+ tocamelcase (fst d)
                 +:+ "() " +:+ rest)
       (declaredNames s).
Proof.
  rewrite isRawStructType_forallb.
  induction s as [|f rest IH]; [intros _; split; [reflexivity | constructor]|].
  cbn [forallb]. intros H. apply andb_prop in H as [Ht Hrest].
  destruct (IH Hrest) as [IH1 IH2]. clear IH.
  pose proof Ht as Hin. apply oneOf_In in Hin.
  cbn [declaredNames flat_map]. fold (declaredNames rest). split.
  - cbn [writeAccessorFuncs].
    rewrite snd_bind;
      [| apply writeAccessorFuncs_names_appending
       | intros; appending; apply writeAccessorFuncs_appending].
    rewrite (writeAccessorFuncs_names_raw _ _ _ Ht).
    rewrite map_app, joined_app, IH1.
    now rewrite (writeAccessorFuncs_names_out _ _ _ Hin).
  - apply Forall_app. split; [|exact IH2].
    apply List.Forall_forall. intros d Hd. apply in_map_iff in Hd as [n [<- _]].
    unfold accessorsOf. cbn [fst snd].
    now apply writeAccessorFuncs_names_head.
Qed.

Lemma accessors_per_declared_name_witness :
  snd (writeAccessorFuncs "mixed" sharedType "")
  = joined (map (accessorsOf "mixed") (declaredNames sharedType))
  /\ Forall (fun d => exists rest,
               accessorsOf "mixed" d
               = "func (r *" +:+ "mixed" +:+ ") " +:+ tocamelcase (fst d)
                 +:+ "() " +:+ rest)
       (declaredNames sharedType).
Proof.
  apply (accessors_per_declared_name "mixed" sharedType). reflexivity.
Defined.

(** ** The extension of a path *)

Lemma string_of_list_snoc (l : list ascii) (c : ascii) (s : string) :
  string_of_list_ascii (l ++ [c]) +:+ s = string_of_list_ascii l +:+ String c s.
Proof.
  induction l as [|x l IH]; [reflexivity|].
  cbn [app string_of_list_ascii]. now rewrite !Str.app_cons, IH.
Qed.

Lemma list_ascii_of_app (a b : string) :
  list_ascii_of_string (a +:+ b) = list_ascii_of_string a ++ list_ascii_of_string b.
Proof.
  induction a as [|x a IH]; [reflexivity|].
  rewrite Str.app_cons. cbn [list_ascii_of_string app]. now rewrite IH.
Qed.

Lemma Ext_loop_spec (back : list ascii) (suffix : string) :
  noDot suffix = true -> noSlash suffix = true ->
  (exists pre,
     string_of_list_ascii (rev back) +:+ suffix
     = pre +:+ filepath.Ext_loop back suffix)
  /\ (filepath.Ext_loop back suffix = ""
      \/ exists suf, filepath.Ext_loop back suffix = String "." suf
                     /\ noDot suf = true /\ noSlash suf = true).
Proof.
  revert suffix. induction back as [|c back IH]; intros suffix Hd Hs.
  - split; [|now left]. eexists. cbn [filepath.Ext_loop].
    now rewrite Str.app_nil_r.
  - cbn [filepath.Ext_loop rev]. unfold filepath.IsPathSeparator.
    destruct (Ascii.eqb c "/") eqn:Esep.
    { split; [|now left]. eexists. now rewrite Str.app_nil_r. }
    destruct (Ascii.eqb c ".") eqn:Edot.
    { apply Ascii.eqb_eq in Edot. subst c. split.
      - exists (string_of_list_ascii (rev back)). apply string_of_list_snoc.
      - right. now exists suffix. }
    rewrite string_of_list_snoc. apply IH; cbn [noDot noSlash].
    + now rewrite Edot.
    + now rewrite Esep.
Qed.

Lemma Ext_suffix (path : string) : exists pre, path = pre +:+ filepath.Ext path.
Proof.
  destruct (Ext_loop_spec (rev (list_ascii_of_string path)) "" eq_refl eq_refl)
    as [[pre Hpre] _].
  fold (filepath.Ext path) in Hpre.
  rewrite rev_involutive, string_of_list_ascii_of_string, Str.app_nil_r in Hpre.
  now exists pre.
Qed.

Lemma Ext_go_base (path : string) :
  filepath.Ext path = ".go" -> exists base, path = base +:+ ".go".
Proof.
  intros E. destruct (Ext_suffix path) as [pre H]. exists pre. now rewrite <- E.
Qed.

(** X20.  [filepath.Ext] returns a suffix of the path, which is empty or a
    dot followed by characters that are neither a dot nor a separator; it
    is [.go] exactly for the paths that end in [.go], the path [.go] and
    the paths of hidden files such as [dir/.go] included. *)
Theorem Ext_go_suffix (path : string) :
  (exists pre, path = pre +:+ filepath.Ext path)
  /\ (filepath.Ext path = ""
      \/ exists suf, filepath.Ext path = String "." suf
                     /\ noDot suf = true /\ noSlash suf = true)
  /\ (filepath.Ext path = ".go" <-> exists base, path = base +:+ ".go").
Proof.
  split; [apply Ext_suffix|]. split.
  { apply (Ext_loop_spec (rev (list_ascii_of_string path)) "" eq_refl eq_refl). }
  split.
  - apply Ext_go_base.
  - intros [base ->]. unfold filepath.Ext.
    rewrite list_ascii_of_app, rev_app_distr. reflexivity.
Qed.

(** ** One call of [walk] *)

Lemma process_ok_world ParseFile (path : string) (st : world) :
  fst (process ParseFile path st) = None ->
  exists f0,
    files st !! path = Some f0
    /\ stdlog (snd (process ParseFile path st)) = stdlog st ++ [okLine path]
    /\ (files (snd (process ParseFile path st)) = files st
        \/ writable f0 = true
           /\ exists out,
                files (snd (process ParseFile path st))
                = <[path := mkFile out true]> (files st)).
Proof.
  rewrite process_generate. unfold ioutil.ReadFile.
  destruct (files st !! path) as [f0|] eqn:E0; [|discriminate].
  destruct (generate ParseFile path (content f0)) as [out|e]; [|discriminate].
  intros _. exists f0. split; [reflexivity|].
  unfold ioutil.WriteFile. rewrite E0.
  destruct (writable f0); cbn [snd Println files stdlog].
  - split; [reflexivity|]. right. split; [reflexivity|]. now exists out.
  - split; [reflexivity|]. now left.
Qed.

Lemma importsRaw_true ParseImports (path : string) (st : world) :
  importsRaw ParseImports path st = Ok true ->
  exists f imports,
    files st !! path = Some f
    /\ ParseImports path (content f) = Ok imports
    /\ In rawImport imports.
Proof.
  unfold importsRaw, ioutil.ReadFile.
  destruct (files st !! path) as [f|]; [|discriminate].
  destruct (ParseImports path (content f)) as [imports|e] eqn:E; [|discriminate].
  intros [= H]. exists f, imports. split; [reflexivity|]. split; [exact E|].
  apply existsb_exists in H as [v [Hin Hv]].
  apply String.eqb_eq in Hv. now subst v.
Qed.

(** A call of [walk] leaves the world as it is, or is a successful call of
    [process] on a regular file. *)
Lemma walk_cases ParseFile ParseImports (path : string) (info : option FileInfo)
    (err : option error) (st : world) :
  snd (walk ParseFile ParseImports path info err st) = st
  \/ (info = regular
      /\ filepath.Ext path = ".go"
      /\ importsRaw ParseImports path st = Ok true
      /\ fst (process ParseFile path st) = None
      /\ walk ParseFile ParseImports path info err st
         = (None, snd (process ParseFile path st))).
Proof.
  unfold walk. destruct info as [[d]|]; [|now left].
  cbn [IsDir]. destruct d; [now left|].
  destruct (String.eqb (filepath.Ext path) ".go") eqn:Eext; [|now left].
  cbn [negb]. apply String.eqb_eq in Eext.
  destruct (importsRaw ParseImports path st) as [[|]|e] eqn:Ei;
    [|now left|now left].
  destruct (process ParseFile path st) as [[e|] st'] eqn:Ep.
  - left. cbn [snd].
    change st' with (snd (Some e, st')). rewrite <- Ep.
    apply (process_error_keeps_world _ _ _ e). now rewrite Ep.
  - right. repeat split; assumption || reflexivity.
Qed.

(** X21.  A call of [walk] that changes the files or the log is a call
    for a regular file whose path ends in [.go], which is there and whose
    imports hold the path of the package [raw]; it returns no error, and
    the world is the one a successful [process] of that file leaves.  So a
    directory, a file of another kind, a file without that import and any
    call that fails change nothing. *)
Theorem walk_rewrites_go_files_importing_raw
    (ParseFile : string -> string -> result File)
    (ParseImports : string -> string -> result (list string))
    (path : string) (info : option FileInfo) (err : option error) (st : world) :
  snd (walk ParseFile ParseImports path info err st) <> st ->
  info = Some (mkFileInfo false)
  /\ (exists base, path = base +:+ ".go")
  /\ (exists f imports,
        files st !! path = Some f
        /\ ParseImports path (content f) = Ok imports
        /\ In rawImport imports)
  /\ fst (process ParseFile path st) = None
  /\ walk ParseFile ParseImports path info err st
     = (None, snd (process ParseFile path st)).
Proof.
  intros Hne.
  destruct (walk_cases ParseFile ParseImports path info err st)
    as [H | (Hi & Hext & Himp & Hp & Hw)]; [contradiction|].
  split; [exact Hi|]. split.
  - now apply Ext_go_base.
  - split; [now apply importsRaw_true|]. now split.
Qed.

Lemma walk_rewrites_go_files_importing_raw_witness :
  regular = Some (mkFileInfo false)
  /\ (exists base, "a/point.go" = base +:+ ".go")
  /\ (exists f imports,
        files treeWorld !! "a/point.go" = Some f
        /\ sampleImports "a/point.go" (content f) = Ok imports
        /\ In rawImport imports)
  /\ fst (process badParse "a/point.go" treeWorld) = None
  /\ walk badParse sampleImports "a/point.go" regular None treeWorld
     = (None, snd (process badParse "a/point.go" treeWorld)).
Proof.
  apply (walk_rewrites_go_files_importing_raw badParse sampleImports
           "a/point.go" regular None treeWorld).
  intros H. apply (f_equal stdlog) in H. vm_compute in H. discriminate H.
Defined.

(** ** The walk over the tree *)

Lemma walk_failure_keeps_world ParseFile ParseImports (path : string)
    (info : option FileInfo) (err : option error) (st : world) (e : walkError) :
  fst (walk ParseFile ParseImports path info err st) = Some e ->
  snd (walk ParseFile ParseImports path info err st) = st.
Proof.
  intros H.
  destruct (walk_cases ParseFile ParseImports path info err st)
    as [Hst | (_ & _ & _ & _ & Hw)]; [exact Hst|].
  rewrite Hw in H. discriminate H.
Qed.

Lemma WalkTree_app ParseFile ParseImports (pre rest : list entry) (st : world) :
  WalkTree ParseFile ParseImports (pre ++ rest) st
  = match WalkTree ParseFile ParseImports pre st with
    | (Some e, st') => (Some e, st')
    | (None, st') => WalkTree ParseFile ParseImports rest st'
    end.
Proof.
  revert st. induction pre as [|[[path info] err] pre IH]; intros st;
    [reflexivity|].
  cbn [app WalkTree].
  destruct (walk ParseFile ParseImports path info err st) as [[e|] st'];
    [reflexivity | apply IH].
Qed.

(** X22.  The run stops at the first call of [walk] that fails: [main]
    ends with [log.Fatal] on that error, the files and the log are as the
    calls before it have left them, and the entries after it are not
    looked at. *)
Theorem main_stops_at_first_failure
    (ParseFile : string -> string -> result File)
    (ParseImports : string -> string -> result (list string))
    (tree : string -> list entry) (root : string) (st st1 : world)
    (pre post : list entry) (path : string) (info : option FileInfo)
    (err : option error) (e : walkError) :
  root <> "" ->
  tree root = pre ++ (path, info, err) :: post ->
  WalkTree ParseFile ParseImports pre st = (None, st1) ->
  fst (walk ParseFile ParseImports path info err st1) = Some e ->
  main ParseFile ParseImports tree root st = (FatalError e, st1).
Proof.
  intros Hroot Htree Hpre Hfail. unfold main.
  destruct (String.eqb root "") eqn:Er.
  { apply String.eqb_eq in Er. contradiction. }
  rewrite Htree, WalkTree_app, Hpre. cbn [WalkTree].
  pose proof (walk_failure_keeps_world _ _ _ _ _ _ _ Hfail) as Hst.
  destruct (walk ParseFile ParseImports path info err st1) as [r st'].
  cbn [fst snd] in Hfail, Hst. now subst r st'.
Qed.

Lemma main_stops_at_first_failure_witness :
  main badParse sampleImports sampleTree "." treeWorld
  = (FatalError (Failed (ErrExportedRaw "Bad")),
     snd (process badParse "a/point.go" treeWorld)).
Proof.
  apply (main_stops_at_first_failure badParse sampleImports sampleTree "."
           treeWorld (snd (process badParse "a/point.go" treeWorld))
           [(".", directory, None); ("a", directory, None);
            ("a/point.go", regular, None); ("b", directory, None)]
           [("b/notes.txt", regular, None); ("c", directory, None);
            ("c/point.go", regular, None)]
           "b/bad.go" regular None (Failed (ErrExportedRaw "Bad"))).
  - discriminate.
  - reflexivity.
  - vm_compute. reflexivity.
  - vm_compute. reflexivity.
Defined.

Lemma walk_perms ParseFile ParseImports (path : string) (info : option FileInfo)
    (err : option error) (st : world) (p : string) :
  writable <$> files (snd (walk ParseFile ParseImports path info err st)) !! p
  = writable <$> files st !! p.
Proof.
  destruct (walk_cases ParseFile ParseImports path info err st)
    as [Hst | (_ & _ & _ & Hp & Hw)]; [now rewrite Hst|].
  rewrite Hw. cbn [snd].
  destruct (process_ok_world _ _ _ Hp) as (f0 & H0 & _ & [Hf | [Hwr [out Hf]]]);
    rewrite Hf; [reflexivity|].
  destruct (decide (p = path)) as [->|Hne].
  - rewrite lookup_insert_eq, H0. cbn. now rewrite Hwr.
  - now rewrite lookup_insert_ne.
Qed.

Lemma WalkTree_perms ParseFile ParseImports (entries : list entry) (st : world)
    (p : string) :
  writable <$> files (snd (WalkTree ParseFile ParseImports entries st)) !! p
  = writable <$> files st !! p.
Proof.
  revert st. induction entries as [|[[path info] err] rest IH]; intros st;
    [reflexivity|].
  cbn [WalkTree].
  pose proof (walk_perms ParseFile ParseImports path info err st p) as Hw.
  destruct (walk ParseFile ParseImports path info err st) as [[e|] st'];
    cbn [snd] in *; [exact Hw|].
  now rewrite IH.
Qed.

(** X23.  Whatever the tree and however the run ends, it neither creates
    nor deletes a file, and no file changes from writable to read-only or
    back: the mode [0600] given to [ioutil.WriteFile] is never used. *)
Theorem main_keeps_files_and_modes
    (ParseFile : string -> string -> result File)
    (ParseImports : string -> string -> result (list string))
    (tree : string -> list entry) (root : string) (st : world) (p : string) :
  writable <$> files (snd (main ParseFile ParseImports tree root st)) !! p
  = writable <$> files st !! p.
Proof.
  unfold main. destruct (String.eqb root ""); [reflexivity|].
  pose proof (WalkTree_perms ParseFile ParseImports (tree root) st p) as H.
  destruct (WalkTree ParseFile ParseImports (tree root) st) as [[e|] st'];
    exact H.
Qed.

Lemma WalkTree_report ParseFile ParseImports (entries : list entry) (st : world) :
  exists ps,
    ps `sublist_of` map entryPath entries
    /\ stdlog (snd (WalkTree ParseFile ParseImports entries st))
       = stdlog st ++ map okLine ps
    /\ Forall (fun p => exists base, p = base +:+ ".go") ps
    /\ forall p,
         files (snd (WalkTree ParseFile ParseImports entries st)) !! p
         <> files st !! p ->
         In p ps.
Proof.
  revert st. induction entries as [|[[path info] err] rest IH]; intros st.
  { exists []. cbn [WalkTree snd map]. rewrite app_nil_r.
    repeat split; [constructor | constructor | tauto]. }
  cbn [WalkTree map]. change (entryPath (path, info, err)) with path.
  destruct (walk_cases ParseFile ParseImports path info err st)
    as [Hst | (_ & Hext & _ & Hp & Hw)].
  - destruct (walk ParseFile ParseImports path info err st) as [[e|] st'];
      cbn [snd] in Hst; subst st'.
    + exists []. cbn [snd map]. rewrite app_nil_r.
      repeat split; [apply sublist_nil_l | constructor | tauto].
    + destruct (IH st) as (ps & Hsub & Hlog & Hgo & Hch).
      exists ps. repeat split; try assumption. now apply sublist_cons.
  - rewrite Hw.
    destruct (IH (snd (process ParseFile path st))) as (ps & Hsub & Hlog & Hgo & Hch).
    destruct (process_ok_world _ _ _ Hp) as (f0 & H0 & Hl & Hf).
    exists (path :: ps). split; [now apply sublist_skip|]. split.
    { rewrite Hlog, Hl. cbn [map]. now rewrite <- app_assoc. }
    split.
    { constructor; [now apply Ext_go_base | exact Hgo]. }
    intros p Hne. destruct (decide (p = path)) as [->|Hpp]; [now left|].
    right. apply Hch. intros E. apply Hne. rewrite E.
    destruct Hf as [Hf | [_ [out Hf]]]; rewrite Hf; [reflexivity|].
    now apply lookup_insert_ne.
Qed.

(** X24.  The lines a run logs are [OK] lines, one for each of some of the
    paths walked, in the order of the walk; each of these paths ends in
    [.go]; and every file whose content the run has changed is among
    them.  So no file is rewritten without a line that reports it. *)
Theorem main_reports_every_rewrite
    (ParseFile : string -> string -> result File)
    (ParseImports : string -> string -> result (list string))
    (tree : string -> list entry) (root : string) (st : world) :
  exists ps,
    ps `sublist_of` map entryPath (tree root)
    /\ stdlog (snd (main ParseFile ParseImports tree root st))
       = stdlog st ++ map okLine ps
    /\ Forall (fun p => exists base, p = base +:+ ".go") ps
    /\ forall p,
         files (snd (main ParseFile ParseImports tree root st)) !! p
         <> files st !! p ->
         In p ps.
Proof.
  unfold main. destruct (String.eqb root "").
  { exists []. cbn [snd map]. rewrite app_nil_r.
    repeat split; [apply sublist_nil_l | constructor | tauto]. }
  destruct (WalkTree_report ParseFile ParseImports (tree root) st)
    as (ps & H).
  exists ps.
  destruct (WalkTree ParseFile ParseImports (tree root) st) as [[e|] st'];
    exact H.
Qed.

(** ** The first byte of a name *)

(** X25.  [tocamelcase] works on the first byte of a name, not on its
    first character.  An ASCII byte is replaced by its upper-case letter
    and the rest is kept, so that a second application changes nothing.
    Any other byte, which in a Go source is the first byte of the UTF-8
    encoding of a character, is read as a code point of its own and
    written back as two bytes, both outside ASCII: the name comes out one
    byte longer and its first character is no longer the one of the
    source. *)
Theorem tocamelcase_on_first_byte (c : ascii) (rest : string) :
  if nat_of_ascii c <? 128
  then tocamelcase (String c rest) = String (asciiUpper c) rest
       /\ tocamelcase (tocamelcase (String c rest)) = tocamelcase (String c rest)
  else exists a b,
         tocamelcase (String c rest) = String a (String b rest)
         /\ (128 <=? nat_of_ascii a) && (128 <=? nat_of_ascii b) = true.
Proof.
  destruct c as [[] [] [] [] [] [] [] []];
    match goal with
    | |- if ?b then _ else _ =>
        let v := eval vm_compute in b in change b with v; cbv iota
    end;
    match goal with
    | |- _ /\ _ => split; vm_compute; reflexivity
    | |- exists a b, tocamelcase (String ?c _) = _ /\ _ =>
        exists (ascii_of_nat (192 + unicode.ToUpper (nat_of_ascii c) / 64)),
               (ascii_of_nat (128 + unicode.ToUpper (nat_of_ascii c) mod 64));
        split; vm_compute; reflexivity
    end.
Qed.
